(** * extract_repo_info.py: paginated fetcher, retry policy and CSV ledger

    A shallow embedding of [extract_repo_info.py].  Python values decoded
    from JSON are kept dynamically typed ([JValue]); exceptions are an error
    type ([exn]) carried by [Result].  The network is a script: the list of
    responses the server will give, one per [requests.get], in order (an
    exhausted script is a connection failure; urls and header values are
    taken to be such as [requests] sends).  The wall clock is an oracle
    giving the value of the n-th call of [int(time.time())].  The file
    system maps a path to the text of the file; every path can be created
    and appended to, and every string can be written.

    What the program takes from the interpreter and its libraries is a
    parameter: [int] and [str] ([Builtins]), the depth of the call stack,
    the range of [time.sleep] and of [localtime] ([Platform]), and the
    reader and the writer of the [csv] module ([Csv]).

    [logging.info] and [logging.warning] calls (and the formatting of their
    arguments) and the progress bar are left out; the [logging.error] report
    of an exhausted request is kept as an event of the trace. *)

From Stdlib Require Import ZArith String List Ascii Lia Bool DecimalString.
From stdpp Require Import base option list gmap sets strings sorting.

Set Warnings "-register-all".

Local Open Scope string_scope.
Local Open Scope Z_scope.

(** ** Exceptions and results *)

Inductive exn : Type :=
| KeyError
| ValueError
| TypeError
| AssertionError
| JSONDecodeError
| ConnectionError
| RecursionError
| OverflowError
| OSError
| CsvError
| SystemExit (msg : string).

Inductive Result (A : Type) : Type :=
| Ok (a : A)
| Raise (e : exn).

Arguments Ok {A} a.
Arguments Raise {A} e.

Global Instance Result_ret : MRet Result := fun A a => Ok a.

Global Instance Result_bind : MBind Result := fun A B k r =>
  match r with
  | Ok a => k a
  | Raise e => Raise e
  end.

Global Instance Result_fmap : FMap Result := fun A B f r =>
  match r with
  | Ok a => Ok (f a)
  | Raise e => Raise e
  end.

(** ** Decoded JSON values, with Python's view of them *)

Inductive JValue : Type :=
| JNull
| JBool (b : bool)
| JInt (z : Z)
| JStr (s : string)
| JList (items : list JValue)
| JDict (kvs : list (string * JValue)).

(** [bool(v)] *)
Definition truthy (v : JValue) : bool :=
  match v with
  | JNull => false
  | JBool b => b
  | JInt z => negb (z =? 0)
  | JStr s => negb (String.eqb s "")
  | JList items => match items with [] => false | _ => true end
  | JDict kvs => match kvs with [] => false | _ => true end
  end.

(** [v or []] *)
Definition or_empty_list (v : JValue) : JValue :=
  if truthy v then v else JList [].

Fixpoint dict_lookup (key : string) (kvs : list (string * JValue)) : option JValue :=
  match kvs with
  | [] => None
  | (k, v) :: rest => if String.eqb k key then Some v else dict_lookup key rest
  end.

(** [v[key]] for a string key *)
Definition getitem (v : JValue) (key : string) : Result JValue :=
  match v with
  | JDict kvs =>
      match dict_lookup key kvs with
      | Some x => Ok x
      | None => Raise KeyError
      end
  | _ => Raise TypeError
  end.

Fixpoint chars (s : string) : list JValue :=
  match s with
  | EmptyString => []
  | String c rest => JStr (String c EmptyString) :: chars rest
  end.

(** [for x in v] *)
Definition py_iter (v : JValue) : Result (list JValue) :=
  match v with
  | JList items => Ok items
  | JDict kvs => Ok (JStr <$> kvs.*1)
  | JStr s => Ok (chars s)
  | _ => Raise TypeError
  end.

(** [len(v)] *)
Definition py_len (v : JValue) : Result nat :=
  match v with
  | JList items => Ok (length items)
  | JDict kvs => Ok (length kvs)
  | JStr s => Ok (String.length s)
  | _ => Raise TypeError
  end.

(** Hashable values as set elements and dict keys: [True == 1] and
    [False == 0] are the same key. *)
Inductive Key : Type :=
| KNone
| KInt (z : Z)
| KStr (s : string).

Global Instance Key_eq_dec : EqDecision Key.
Proof. solve_decision. Defined.

Global Instance Key_countable : Countable Key.
Proof.
  refine (inj_countable'
    (fun k => match k with
              | KNone => inl ()
              | KInt z => inr (inl z)
              | KStr s => inr (inr s)
              end)
    (fun x => match x with
              | inl _ => KNone
              | inr (inl z) => KInt z
              | inr (inr s) => KStr s
              end) _).
  by intros [].
Defined.

(** [hash(v)] succeeds *)
Definition hashable (v : JValue) : Result Key :=
  match v with
  | JNull => Ok KNone
  | JBool b => Ok (KInt (if b then 1 else 0))
  | JInt z => Ok (KInt z)
  | JStr s => Ok (KStr s)
  | JList _ | JDict _ => Raise TypeError
  end.

(** [l[-n:]] on a list *)
Definition last_n {A : Type} (n : nat) (l : list A) : list A :=
  drop (length l - n) l.

(** [v[-n:]] *)
Definition slice_last (n : nat) (v : JValue) : Result JValue :=
  match v with
  | JList items => Ok (JList (last_n n items))
  | JStr s => Ok (JStr (string_of_list_ascii (last_n n (list_ascii_of_string s))))
  | _ => Raise TypeError
  end.

Fixpoint sum_from (acc : Z) (items : list JValue) : Result Z :=
  match items with
  | [] => Ok acc
  | JInt z :: rest => sum_from (acc + z) rest
  | JBool b :: rest => sum_from (acc + (if b then 1 else 0)) rest
  | _ :: _ => Raise TypeError
  end.

(** [sum(v)] *)
Definition py_sum (v : JValue) : Result Z :=
  items ← py_iter v; sum_from 0 items.

(** ** Built-ins taken as parameters

    [int(s)] on a [str] ([None]: it raises [ValueError]) and [str(v)], as
    Python defines them. *)

Class Builtins : Type := {
  py_int : string → option Z;
  py_str : JValue → string
}.

(** ** The interpreter's stack and the platform's clock, as parameters

    [recursion_depth]: how many times one call of [run_request] can follow
    a "next" link before the interpreter's recursion limit is reached (a
    page takes two frames, [run_request] and [_process_successful_result];
    under the default limit of 1000 frames that is a little under 500).
    The call for the page after that raises [RecursionError]; it is taken
    to do so before its request is sent.
    [sleep_max]: the longest duration [time.sleep] converts; past it, above
    or below zero, it raises [OverflowError] (9223372036 seconds where the
    clock counts nanoseconds in 64 bits).  [localtime_error t]: the
    exception [strftime(..., localtime(t))] raises for the timestamp [t],
    when it raises ([OverflowError] or [OSError] outside the platform's
    range). *)

Class Platform : Type := {
  recursion_depth : nat;
  sleep_max : Z;
  localtime_error : Z → option exn
}.

(** ** The csv module, as parameters

    [csv_writerow cells]: the text [csv.writer(f, dialect="excel")] writes
    for a row of cells that are already strings, line terminator included.
    [csv_reader text]: the records [csv.reader(f, dialect="excel")] yields,
    in order, for a file of this text opened for reading as the program
    opens it, and the exception that ends the iteration when one does. *)

Class Csv : Type := {
  csv_writerow : list string → string;
  csv_reader : string → list (list string) * option exn
}.

(** ** HTTP *)

Definition API_HOST : string := "https://api.github.com".

Definition HEADER_RATELIMIT_LIMIT : string := "x-ratelimit-limit".
Definition HEADER_RATELIMIT_REMAINING : string := "x-ratelimit-remaining".
Definition HEADER_RATELIMIT_RESET : string := "x-ratelimit-reset".

Definition MAX_NB_RETRIES : nat := 20.
Definition RETRY_SLEEP_DEFAULT : Z := 5.
Definition MIN_RATE_LIMIT_REMAINING : Z := 10.

(** A [requests.Response]: [headers] is keyed by the lower-case header
    name, [links] maps a link relation to its url, [json] is the decoded
    body ([None]: the body is not JSON and [.json()] raises). *)
Record Response : Type := {
  status_code : Z;
  headers : gmap string string;
  links : gmap string string;
  json : option JValue
}.

Definition RequestHeaders : Type := option (list (string * string)).

Inductive Event : Type :=
| Get (url : string) (request_headers : RequestHeaders)
| Sleep (seconds : Z)
| LogError (url : string) (failure_status_codes : gset Z).

(** What a request sees besides the network: the clock oracle, how many
    times it was read, and the events so far (oldest first). *)
Record IO : Type := {
  clock : nat → Z;
  ticks : nat;
  trace : list Event
}.

Definition emit (ev : Event) (s : IO) : IO :=
  {| clock := clock s; ticks := ticks s; trace := trace s ++ [ev] |}.

(** [int(time.time())] *)
Definition time_time (s : IO) : Z * IO :=
  (clock s (ticks s),
   {| clock := clock s; ticks := S (ticks s); trace := trace s |}).

(** Result, responses not yet consumed, and state after a request. *)
Definition Outcome (A : Type) : Type := Result A * list Response * IO.

Section Program.
Context `{!Builtins, !Platform, !Csv}.

(** [time.sleep(seconds)]: the duration is converted first, then checked
    for its sign. *)
Definition time_sleep (seconds : Z) (s : IO) : Result unit * IO :=
  if (seconds <? - sleep_max) || (sleep_max <? seconds) then (Raise OverflowError, s)
  else if seconds <? 0 then (Raise ValueError, s)
  else (Ok (), emit (Sleep seconds) s).

(** [int(failed_response.headers[name])] *)
Definition header_int (failed_response : Response) (name : string) : Result Z :=
  match headers failed_response !! name with
  | None => Raise KeyError
  | Some v =>
      match py_int v with
      | Some z => Ok z
      | None => Raise ValueError
      end
  end.

Definition _sleep_duration (failed_response : Response) (s : IO) : Result Z * IO :=
  match
    (rate_limit_max ← header_int failed_response HEADER_RATELIMIT_LIMIT;
     rate_limit_remaining ← header_int failed_response HEADER_RATELIMIT_REMAINING;
     rate_limit_reset_date ← header_int failed_response HEADER_RATELIMIT_RESET;
     Ok (rate_limit_remaining, rate_limit_reset_date))
  with
  | Raise e => (Raise e, s)
  | Ok (rate_limit_remaining, rate_limit_reset_date) =>
      let '(now, s1) := time_time s in
      if rate_limit_remaining <? MIN_RATE_LIMIT_REMAINING then
        let sleep_time := rate_limit_reset_date - now in
        match localtime_error rate_limit_reset_date with
        | Some e => (Raise e, s1)
        | None => (Ok sleep_time, s1)
        end
      else (Ok RETRY_SLEEP_DEFAULT, s1)
  end.

(** [run_request] is passed in: the call for the next page, on the
    responses left after this one. [net] is what is left when no further
    request is made. *)
Definition _process_successful_result
    (run_request : string → RequestHeaders → bool → IO → Outcome JValue)
    (successful_response : Response) (request_headers : RequestHeaders)
    (is_paginated : bool) (net : list Response) (s : IO) : Outcome JValue :=
  if negb (status_code successful_response =? 200) then (Raise AssertionError, net, s)
  else
    match json successful_response with
    | None => (Raise JSONDecodeError, net, s)
    | Some json_results =>
        match (if is_paginated then links successful_response !! "next" else None) with
        | Some next_url =>
            match json_results with
            | JList items =>
                let '(r, net', s') := run_request next_url request_headers is_paginated s in
                match r with
                | Raise e => (Raise e, net', s')
                | Ok additional_results =>
                    if truthy additional_results then
                      match additional_results with
                      | JList more => (Ok (JList (items ++ more)), net', s')
                      | _ => (Raise AssertionError, net', s')
                      end
                    else (Ok json_results, net', s')
                end
            | _ => (Raise AssertionError, net, s)
            end
        | None => (Ok json_results, net, s)
        end
    end.

(** The [while] loop of [run_request], from a given [failure_count] and
    [failure_status_codes].  [depth] is the number of "next" links the
    stack still has room to follow: the call of [run_request] for a next
    page, made from [_process_successful_result], raises [RecursionError]
    before its request when there is none left. *)
Fixpoint run_request_loop (depth : nat) (net : list Response) (url : string)
    (request_headers : RequestHeaders) (is_paginated : bool)
    (failure_count : nat) (failure_status_codes : gset Z) (s : IO)
    {struct net} : Outcome JValue :=
  if (failure_count <? MAX_NB_RETRIES)%nat then
    let s0 := emit (Get url request_headers) s in
    match net with
    | [] => (Raise ConnectionError, [], s0)
    | raw_results :: net' =>
        if status_code raw_results =? 200 then
          _process_successful_result
            (fun url' request_headers' is_paginated' s' =>
               match depth with
               | O => (Raise RecursionError, net', s')
               | S depth' =>
                   run_request_loop depth' net' url' request_headers' is_paginated'
                     0%nat ∅ s'
               end)
            raw_results request_headers is_paginated net' s0
        else if status_code raw_results =? 204 then (Ok JNull, net', s0)
        else
          let failure_status_codes' := failure_status_codes ∪ {[status_code raw_results]} in
          let failure_count' := S failure_count in
          match _sleep_duration raw_results s0 with
          | (Raise e, s1) => (Raise e, net', s1)
          | (Ok seconds, s1) =>
              match time_sleep seconds s1 with
              | (Raise e, s2) => (Raise e, net', s2)
              | (Ok _, s2) =>
                  run_request_loop depth net' url request_headers is_paginated
                    failure_count' failure_status_codes' s2
              end
          end
    end
  else (Ok JNull, net, emit (LogError url failure_status_codes) s).

(** The call of [run_request] made for a next page when [depth] links can
    still be followed, on the responses [net]. *)
Definition next_request (depth : nat) (net : list Response) (url : string)
    (request_headers : RequestHeaders) (is_paginated : bool) (s : IO) : Outcome JValue :=
  match depth with
  | O => (Raise RecursionError, net, s)
  | S depth' =>
      run_request_loop depth' net url request_headers is_paginated 0%nat ∅ s
  end.

(** A call of [run_request] by the job. *)
Definition run_request (net : list Response) (url : string)
    (request_headers : RequestHeaders) (is_paginated : bool) (s : IO) : Outcome JValue :=
  run_request_loop recursion_depth net url request_headers is_paginated 0%nat ∅ s.

(** *** The endpoints *)

Definition get_repos (net : list Response) (organization : string)
    (request_headers : RequestHeaders) (s : IO) : Outcome JValue :=
  run_request net
    (API_HOST +:+ "/orgs/" +:+ organization
       +:+ "/repos?sort=full_name&per_page=100&page=1&type=all")
    request_headers true s.

Definition get_contributors (net : list Response) (repo_name : JValue)
    (request_headers : RequestHeaders) (s : IO) : Outcome JValue :=
  run_request net
    (API_HOST +:+ "/repos/" +:+ py_str repo_name
       +:+ "/contributors?sort=full_name&per_page=100&page=1")
    request_headers true s.

Definition get_all_teams (net : list Response) (organization : string)
    (request_headers : RequestHeaders) (s : IO) : Outcome JValue :=
  run_request net
    (API_HOST +:+ "/orgs/" +:+ organization +:+ "/teams?per_page=100&page=1")
    request_headers true s.

Definition get_team_members (net : list Response) (organization : string)
    (team : JValue) (request_headers : RequestHeaders) (s : IO) : Outcome JValue :=
  run_request net
    (API_HOST +:+ "/orgs/" +:+ organization +:+ "/teams/" +:+ py_str team
       +:+ "/members?per_page=100&page=1")
    request_headers true s.

Definition get_participation_stats (net : list Response) (repo_name : JValue)
    (request_headers : RequestHeaders) (s : IO) : Outcome JValue :=
  run_request net
    (API_HOST +:+ "/repos/" +:+ py_str repo_name +:+ "/stats/participation")
    request_headers false s.

(** ** The summary row *)

Record RepoRow : Type := {
  repo_name : JValue;
  repo_id : JValue;
  repo_size : JValue;
  last_3_weeks_commit_count : Z;
  last_52_weeks_commit_count : Z;
  contributor_count : nat;
  contributor_handles : string;
  team_names : string
}.

(** [RepoRow._fields] *)
Definition field_names : list string :=
  ["repo_name"; "repo_id"; "repo_size"; "last_3_weeks_commit_count";
   "last_52_weeks_commit_count"; "contributor_count"; "contributor_handles";
   "team_names"].

(** [{member["login"] for member in members}], members already iterated *)
Fixpoint login_set (members : list JValue) : Result (gset Key) :=
  match members with
  | [] => Ok ∅
  | member :: rest =>
      login ← getitem member "login";
      k ← hashable login;
      logins ← login_set rest;
      Ok ({[k]} ∪ logins)
  end.

(** The loop over [member_logins_by_team_slug.items()] *)
Definition teams_of (repo_contributor_logins : gset Key)
    (member_logins_by_team_slug : list (Key * gset Key)) : gset Key :=
  foldl (fun teams '(team_slug, team_member_logins) =>
           if decide (repo_contributor_logins ∩ team_member_logins ≠ ∅)
           then teams ∪ {[team_slug]} else teams)
        ∅ member_logins_by_team_slug.

Definition key_str (k : Key) : option string :=
  match k with
  | KStr s => Some s
  | _ => None
  end.

(** [", ".join(sorted(keys))]: a key that is not a [str] is a [TypeError],
    in [sorted] or in [join]. *)
Definition sorted_join (keys : gset Key) : Result string :=
  match mapM key_str (elements keys) with
  | Some strs => Ok (String.concat ", " (merge_sort (fun a b => String.leb a b) strs))
  | None => Raise TypeError
  end.

(** [sum(repo_stats["all"][-weeks:]) if repo_stats else 0] *)
Definition commit_count (repo_stats : JValue) (weeks : nat) : Result Z :=
  if truthy repo_stats then
    all ← getitem repo_stats "all";
    recent ← slice_last weeks all;
    py_sum recent
  else Ok 0.

Definition build_repo_row (repo repo_contributors repo_stats : JValue)
    (member_logins_by_team_slug : list (Key * gset Key)) : Result RepoRow :=
  contributors ← py_iter repo_contributors;
  repo_contributor_logins ← login_set contributors;
  let teams := teams_of repo_contributor_logins member_logins_by_team_slug in
  name ← getitem repo "name";
  id ← getitem repo "id";
  size ← getitem repo "size";
  last_3 ← commit_count repo_stats 3;
  last_52 ← commit_count repo_stats 52;
  handles ← sorted_join repo_contributor_logins;
  slugs ← sorted_join teams;
  Ok {| repo_name := name;
        repo_id := id;
        repo_size := size;
        last_3_weeks_commit_count := last_3;
        last_52_weeks_commit_count := last_52;
        contributor_count := base.size repo_contributor_logins;
        contributor_handles := handles;
        team_names := slugs |}.

(** ** The output file

    A file is its text.  The writers append the text the csv writer gives
    for a row; the reader sees the file through the csv reader. *)

(** What the csv writer puts in a cell for a value. *)
Definition csv_cell (v : JValue) : string :=
  match v with
  | JNull => ""
  | JStr s => s
  | _ => py_str v
  end.

Definition row_cells (row : RepoRow) : list string :=
  [csv_cell (repo_name row); csv_cell (repo_id row); csv_cell (repo_size row);
   csv_cell (JInt (last_3_weeks_commit_count row));
   csv_cell (JInt (last_52_weeks_commit_count row));
   csv_cell (JInt (Z.of_nat (contributor_count row)));
   contributor_handles row; team_names row].

Definition start_repo_csv (filepath : string) (fs : gmap string string)
    : bool * gmap string string :=
  match fs !! filepath with
  | Some _ => (false, fs)
  | None => (true, <[filepath := csv_writerow field_names]> fs)
  end.

Definition write_repo_row (filepath : string) (row : RepoRow)
    (fs : gmap string string) : gmap string string :=
  <[filepath := default "" (fs !! filepath) +:+ csv_writerow (row_cells row)]> fs.

(** The dict [csv.DictReader] builds for a record: [dict(zip(fieldnames,
    row))], then [restval] ([None]) for the field names a short record
    leaves out. *)
Definition dict_reader_row (fieldnames row : list string) : gmap string (option string) :=
  let d := foldl (fun d '(k, v) => <[k := Some v]> d) ∅ (zip fieldnames row) in
  foldl (fun d k => <[k := None]> d) d (drop (length row) fieldnames).

(** [{int(row["repo_id"]) for row in repo_reader if row["repo_id"]}], over
    the records the reader yields after the header, one at a time; [ended]
    is the exception the reader raises after the last of them, if any. *)
Fixpoint repo_ids_of (fieldnames : list string) (records : list (list string))
    (ended : option exn) : Result (gset Z) :=
  match records with
  | [] =>
      match ended with
      | Some e => Raise e
      | None => Ok ∅
      end
  | [] :: rest => repo_ids_of fieldnames rest ended
  | row :: rest =>
      match dict_reader_row fieldnames row !! "repo_id" with
      | None => Raise KeyError
      | Some None => repo_ids_of fieldnames rest ended
      | Some (Some cell) =>
          if String.eqb cell "" then repo_ids_of fieldnames rest ended
          else
            match py_int cell with
            | None => Raise ValueError
            | Some z => ids ← repo_ids_of fieldnames rest ended; Ok ({[z]} ∪ ids)
            end
      end
  end.

Definition get_repo_ids_from_csv (filepath : string)
    (fs : gmap string string) : Result (option (gset Z)) :=
  match fs !! filepath with
  | None => Ok None
  | Some text =>
      match csv_reader text with
      | ([], None) => Ok (Some ∅)
      | ([], Some e) => Raise e
      | (fieldnames :: records, ended) => Some <$> repo_ids_of fieldnames records ended
      end
  end.

(** ** The job

    The job runs over the network script, the clock and trace, and the
    file system together. *)

Record World : Type := {
  net : list Response;
  io : IO;
  fs : gmap string string
}.

Definition Job (A : Type) : Type := World → Result A * World.

Global Instance Job_ret : MRet Job := fun A a w => (Ok a, w).

Global Instance Job_bind : MBind Job := fun A B k m w =>
  match m w with
  | (Ok a, w') => k a w'
  | (Raise e, w') => (Raise e, w')
  end.

(** A computation that has no effect. *)
Definition pure {A : Type} (r : Result A) : Job A := fun w => (r, w).

(** A request, on the world's network script. *)
Definition request {A : Type} (f : list Response → IO → Outcome A) : Job A :=
  fun w =>
    let '(r, net', io') := f (net w) (io w) in
    (r, {| net := net'; io := io'; fs := fs w |}).

(** An operation of the ledger, on the world's file system. *)
Definition on_files {A : Type}
    (f : gmap string string → A * gmap string string) : Job A :=
  fun w =>
    let '(a, fs') := f (fs w) in
    (Ok a, {| net := net w; io := io w; fs := fs' |}).

(** [d[k] = v] on a dict kept in insertion order *)
Fixpoint dict_set {V : Type} (k : Key) (v : V) (d : list (Key * V)) : list (Key * V) :=
  match d with
  | [] => [(k, v)]
  | (k', v') :: rest =>
      if decide (k' = k) then (k, v) :: rest else (k', v') :: dict_set k v rest
  end.

(** The first comprehension of [get_logins_by_team_slug], over the teams
    left, from the dict built so far. *)
Fixpoint members_by_team_slug (owner : string) (request_headers : RequestHeaders)
    (teams : list JValue) (acc : list (Key * JValue)) : Job (list (Key * JValue)) :=
  match teams with
  | [] => mret acc
  | team :: rest =>
      slug ← pure (getitem team "slug");
      members ← request (fun net => get_team_members net owner slug request_headers);
      k ← pure (hashable slug);
      members_by_team_slug owner request_headers rest
        (dict_set k (or_empty_list members) acc)
  end.

(** The second comprehension of [get_logins_by_team_slug]. *)
Fixpoint logins_by_team_slug (items : list (Key * JValue))
    : Result (list (Key * gset Key)) :=
  match items with
  | [] => Ok []
  | (team_slug, members) :: rest =>
      members' ← py_iter members;
      logins ← login_set members';
      others ← logins_by_team_slug rest;
      Ok ((team_slug, logins) :: others)
  end.

Definition get_logins_by_team_slug (owner : string) (request_headers : RequestHeaders)
    : Job (list (Key * gset Key)) :=
  all_teams ← request (fun net => get_all_teams net owner request_headers);
  teams ← pure (py_iter (or_empty_list all_teams));
  items ← members_by_team_slug owner request_headers teams [];
  pure (logins_by_team_slug items).

Record Args : Type := {
  owner : string;
  token : option string;
  filepath : string;
  append_only : bool
}.

(** Lines 285-300: the skip-set of the run, or the exit. *)
Definition previously_processed_repo_ids (args : Args) : Job (gset Z) :=
  if append_only args then
    ids_from_csv ← (fun w => (get_repo_ids_from_csv (filepath args) (fs w), w));
    match ids_from_csv with
    | None =>
        pure (Raise (SystemExit
          ("The given file does not already exist. Do not run in --append-only mode if you want "
           +:+ "to create a new CSV.")))
    | Some ids => mret ids
    end
  else
    started ← on_files (start_repo_csv (filepath args));
    let file_exists := negb started in
    if file_exists then
      pure (Raise (SystemExit
        "The given file already exists. Do you want to use --append-only mode?"))
    else mret ∅.

(** Lines 302-307 *)
Definition request_headers_of (args : Args) : RequestHeaders :=
  match token args with
  | None => None
  | Some t =>
      if String.eqb t "" then None
      else Some [("Authorization", "Bearer " +:+ t);
                 ("Accept", "application/vnd.github+json")]
  end.

(** [repo["id"] in previously_processed_repo_ids] *)
Definition in_ids (k : Key) (ids : gset Z) : bool :=
  match k with
  | KInt z => bool_decide (z ∈ ids)
  | _ => false
  end.

(** Lines 317-327: the loop over the repositories. *)
Fixpoint repo_loop (repos : list JValue) (previous : gset Z)
    (request_headers : RequestHeaders)
    (member_logins_by_team_slug : list (Key * gset Key)) (path : string)
    : Job unit :=
  match repos with
  | [] => mret ()
  | repo :: rest =>
      id ← pure (getitem repo "id");
      k ← pure (hashable id);
      if in_ids k previous then
        repo_loop rest previous request_headers member_logins_by_team_slug path
      else
        full_name ← pure (getitem repo "full_name");
        contributors ← request (fun net => get_contributors net full_name request_headers);
        let repo_contributors := or_empty_list contributors in
        repo_stats ← request (fun net => get_participation_stats net full_name request_headers);
        repo_row ← pure (build_repo_row repo repo_contributors repo_stats
                           member_logins_by_team_slug);
        _ ← on_files (fun fs => ((), write_repo_row path repo_row fs));
        repo_loop rest previous request_headers member_logins_by_team_slug path
  end.

(** The script, after the arguments are parsed. *)
Definition main (args : Args) : Job unit :=
  previous ← previously_processed_repo_ids args;
  let headers := request_headers_of args in
  fetched ← request (fun net => get_repos net (owner args) headers);
  let repos := or_empty_list fetched in
  member_logins_by_team_slug ← get_logins_by_team_slug (owner args) headers;
  _ ← pure (py_len repos);
  repos' ← pure (py_iter repos);
  repo_loop repos' previous headers member_logins_by_team_slug (filepath args).

End Program.

(** ** An instance of the built-ins, for closed examples

    [int] on plain decimal literals (an optional minus sign and digits) and
    [str] on decoded JSON values (strings inside containers are quoted
    without escapes). *)

Definition as_str (v : JValue) : option string :=
  match v with
  | JStr s => Some s
  | _ => None
  end.

Fixpoint decimal_str (v : JValue) : string :=
  match v with
  | JNull => "None"
  | JBool b => if b then "True" else "False"
  | JInt z => NilZero.string_of_int (Z.to_int z)
  | JStr s => s
  | JList items =>
      "[" +:+ String.concat ", "
                (map (fun x => match as_str x with
                               | Some s => "'" +:+ s +:+ "'"
                               | None => decimal_str x
                               end) items) +:+ "]"
  | JDict kvs =>
      "{" +:+ String.concat ", "
                (map (fun '(k, x) => "'" +:+ k +:+ "': " +:+
                                     match as_str x with
                                     | Some s => "'" +:+ s +:+ "'"
                                     | None => decimal_str x
                                     end) kvs) +:+ "}"
  end.

Definition decimal_builtins : Builtins :=
  {| py_int := fun s => Z.of_int <$> NilZero.int_of_string s;
     py_str := decimal_str |}.

(** ** An instance of the platform, for closed examples

    The interpreter with its default recursion limit, on a platform whose
    clock counts nanoseconds in 64 bits and whose [localtime] takes the
    timestamps of the years that fit 32 bits. *)

Definition cpython_platform : Platform :=
  {| recursion_depth := 496;
     sleep_max := 9223372036;
     localtime_error := fun t =>
       if (t <? -9223372036854775808) || (9223372036854775807 <? t)
       then Some OverflowError
       else if (t <? -67768040609740800) || (67768036191676799 <? t)
       then Some OSError
       else None |}.

(** ** An instance of the csv module, for closed examples

    The writer and the reader of the "excel" dialect: comma, double quote
    doubled inside quoted fields, minimal quoting, lines ended by CR LF,
    fields of at most 131072 characters.  The reader is the state machine
    of the module, run over the lines of a file opened with universal
    newlines. *)

Definition QUOTE : ascii := "034"%char.
Definition COMMA : ascii := ","%char.
Definition CR : ascii := "013"%char.
Definition LF : ascii := "010"%char.

Fixpoint has_special (field : string) : bool :=
  match field with
  | EmptyString => false
  | String c rest =>
      (c =? COMMA)%char || (c =? QUOTE)%char || (c =? CR)%char || (c =? LF)%char
      || has_special rest
  end.

Fixpoint double_quotes (field : string) : string :=
  match field with
  | EmptyString => EmptyString
  | String c rest =>
      if (c =? QUOTE)%char then String c (String c (double_quotes rest))
      else String c (double_quotes rest)
  end.

Definition excel_field (field : string) : string :=
  if has_special field
  then String QUOTE (double_quotes field +:+ String QUOTE EmptyString)
  else field.

Definition CRLF : string := String CR (String LF EmptyString).

Definition excel_writerow (cells : list string) : string :=
  match cells with
  | [EmptyString] => String QUOTE (String QUOTE CRLF)
  | _ => String.concat "," (excel_field <$> cells) +:+ CRLF
  end.

(** What a file opened with [newline=None] gives for its text. *)
Fixpoint universal_newlines (text : string) : string :=
  match text with
  | EmptyString => EmptyString
  | String c rest =>
      if (c =? CR)%char then
        match rest with
        | String c' rest' =>
            if (c' =? LF)%char then String LF (universal_newlines rest')
            else String LF (universal_newlines rest)
        | EmptyString => String LF EmptyString
        end
      else String c (universal_newlines rest)
  end.

Inductive ParserState : Type :=
| START_RECORD
| START_FIELD
| IN_FIELD
| IN_QUOTED_FIELD
| QUOTE_IN_QUOTED_FIELD
| EAT_CRNL.

(** The reader: its state, the field being read (last character first)
    and its length, the fields of the record being read (last first), and
    the records yielded (last first). *)
Record Parser : Type := {
  p_state : ParserState;
  p_field : list ascii;
  p_len : N;
  p_fields : list string;
  p_records : list (list string)
}.

Definition parser_start : Parser :=
  {| p_state := START_RECORD; p_field := []; p_len := 0%N; p_fields := [];
     p_records := [] |}.

Definition field_limit : N := 131072%N.

Definition parse_goto (st : ParserState) (p : Parser) : Parser :=
  {| p_state := st; p_field := p_field p; p_len := p_len p;
     p_fields := p_fields p; p_records := p_records p |}.

Definition parse_save_field (st : ParserState) (p : Parser) : Parser :=
  {| p_state := st; p_field := []; p_len := 0%N;
     p_fields := string_of_list_ascii (rev (p_field p)) :: p_fields p;
     p_records := p_records p |}.

Definition parse_add_char (st : ParserState) (c : ascii) (p : Parser) : option Parser :=
  if (field_limit <=? p_len p)%N then None
  else Some {| p_state := st; p_field := c :: p_field p; p_len := N.succ (p_len p);
               p_fields := p_fields p; p_records := p_records p |}.

(** The record being read is yielded. *)
Definition parse_yield (p : Parser) : Parser :=
  {| p_state := START_RECORD; p_field := []; p_len := 0%N; p_fields := [];
     p_records := rev (p_fields p) :: p_records p |}.

Definition is_newline (c : ascii) : bool := (c =? LF)%char || (c =? CR)%char.

Definition parse_start_field (c : ascii) (p : Parser) : option Parser :=
  if is_newline c then Some (parse_save_field EAT_CRNL p)
  else if (c =? QUOTE)%char then Some (parse_goto IN_QUOTED_FIELD p)
  else if (c =? COMMA)%char then Some (parse_save_field START_FIELD p)
  else parse_add_char IN_FIELD c p.

Definition parse_process_char (c : ascii) (p : Parser) : option Parser :=
  match p_state p with
  | START_RECORD =>
      if is_newline c then Some (parse_goto EAT_CRNL p)
      else parse_start_field c p
  | START_FIELD => parse_start_field c p
  | IN_FIELD =>
      if is_newline c then Some (parse_save_field EAT_CRNL p)
      else if (c =? COMMA)%char then Some (parse_save_field START_FIELD p)
      else parse_add_char IN_FIELD c p
  | IN_QUOTED_FIELD =>
      if (c =? QUOTE)%char then Some (parse_goto QUOTE_IN_QUOTED_FIELD p)
      else parse_add_char IN_QUOTED_FIELD c p
  | QUOTE_IN_QUOTED_FIELD =>
      if (c =? QUOTE)%char then parse_add_char IN_QUOTED_FIELD c p
      else if (c =? COMMA)%char then Some (parse_save_field START_FIELD p)
      else if is_newline c then Some (parse_save_field EAT_CRNL p)
      else parse_add_char IN_FIELD c p
  | EAT_CRNL =>
      if is_newline c then Some p else None
  end.

(** The end of a line: the record is yielded unless a quoted field is
    open. *)
Definition parse_end_of_line (p : Parser) : Parser :=
  match p_state p with
  | START_RECORD | EAT_CRNL => parse_yield p
  | START_FIELD | IN_FIELD | QUOTE_IN_QUOTED_FIELD =>
      parse_yield (parse_save_field START_RECORD p)
  | IN_QUOTED_FIELD => p
  end.

(** The end of the file: a record left open is yielded. *)
Definition parse_end_of_file (p : Parser) : Parser :=
  match p_state p, p_field p with
  | IN_QUOTED_FIELD, _ | _, _ :: _ => parse_yield (parse_save_field START_RECORD p)
  | _, [] => p
  end.

(** [at_line_start]: no character of the current line has been read. *)
Fixpoint excel_scan (p : Parser) (text : string) (at_line_start : bool)
    : list (list string) * option exn :=
  match text with
  | EmptyString =>
      let p' := if at_line_start then p else parse_end_of_line p in
      (rev (p_records (parse_end_of_file p')), None)
  | String c rest =>
      match parse_process_char c p with
      | None => (rev (p_records p), Some CsvError)
      | Some p' =>
          if (c =? LF)%char then excel_scan (parse_end_of_line p') rest true
          else excel_scan p' rest false
      end
  end.

Definition excel_reader (text : string) : list (list string) * option exn :=
  excel_scan parser_start (universal_newlines text) true.

Definition excel_csv : Csv :=
  {| csv_writerow := excel_writerow; csv_reader := excel_reader |}.

(** A response with the given status, body and link to a next page, and
    the three rate-limit headers. *)
Definition response (status : Z) (body : option JValue) (next : option string)
    (limit remaining reset : string) : Response :=
  {| status_code := status;
     headers := {[ HEADER_RATELIMIT_LIMIT := limit;
                   HEADER_RATELIMIT_REMAINING := remaining;
                   HEADER_RATELIMIT_RESET := reset ]};
     links := match next with
              | Some u => {[ "next" := u ]}
              | None => ∅
              end;
     json := body |}.

(** A failed response that carries no header at all. *)
Definition bare_response (status : Z) : Response :=
  {| status_code := status; headers := ∅; links := ∅; json := None |}.

Definition start_io (now : Z) : IO :=
  {| clock := fun _ => now; ticks := 0; trace := [] |}.

(** *** Example responses, repositories and world *)

Definition page_2_url : string := "https://api.github.com/organizations/1/repos?page=2".

Definition page_1 : Response :=
  response 200 (Some (JList [JInt 1; JInt 2])) (Some page_2_url)
    "5000" "4999" "1700000000".

Definition page_2 : Response :=
  response 200 (Some (JList [JInt 3])) None "5000" "4998" "1700000000".

Definition server_error : Response :=
  response 500 None None "5000" "4999" "1700000000".

Definition throttled : Response :=
  response 403 None None "5000" "0" "100".

(** A throttled response whose reset time is past the range of the
    platform's [time_t]. *)
Definition far_reset : Response :=
  response 403 None None "5000" "0" "99999999999999999999".

Definition no_content : Response :=
  response 204 None None "5000" "4999" "1700000000".

Definition message_body : JValue := JDict [("message", JStr "Moved")].

Definition message_page : Response :=
  response 200 (Some message_body) None "5000" "4999" "1700000000".

Definition message_page_linked : Response :=
  response 200 (Some message_body) (Some page_2_url) "5000" "4999" "1700000000".

Definition example_repo (id : Z) (name : string) : JValue :=
  JDict [("id", JInt id); ("name", JStr name);
         ("full_name", JStr ("acme/" +:+ name)); ("size", JInt 10)].

Definition example_contributors : JValue :=
  JList [JDict [("login", JStr "bob")]; JDict [("login", JStr "alice")]].

Definition example_teams : list (Key * gset Key) :=
  [(KStr "core", {[KStr "alice"]}); (KStr "docs", {[KStr "carol"]})].

(** The row of repository 4 with weekly counts 1, 2, 3, 4. *)
Definition example_row : RepoRow :=
  {| repo_name := JStr "d";
     repo_id := JInt 4;
     repo_size := JInt 10;
     last_3_weeks_commit_count := 9;
     last_52_weeks_commit_count := 10;
     contributor_count := 2;
     contributor_handles := "alice, bob";
     team_names := "core" |}.

Definition repos_page : Response :=
  response 200
    (Some (JList [example_repo 1 "a"; example_repo 2 "b";
                  example_repo 3 "c"; example_repo 4 "d"]))
    None "5000" "4999" "1700000000".

Definition teams_page : Response :=
  response 200 (Some (JList [JDict [("slug", JStr "core")]])) None
    "5000" "4998" "1700000000".

Definition members_page : Response :=
  response 200 (Some (JList [JDict [("login", JStr "alice")]])) None
    "5000" "4997" "1700000000".

Definition contributors_page : Response :=
  response 200 (Some example_contributors) None "5000" "4996" "1700000000".

(** The records of the example file, and the file as the program wrote
    it. *)
Definition example_records : list (list string) :=
  [["a"; "1"; "10"; "0"; "0"; "0"; ""; ""];
   ["b"; "2"; "10"; "0"; "0"; "0"; ""; ""];
   ["c"; "3"; "10"; "0"; "0"; "0"; ""; ""]].

Definition example_file : string :=
  String.concat "" (excel_writerow <$> field_names :: example_records).

(** An append-only run: the file has ids 1, 2, 3; the server lists
    repositories 1 to 4 and one team, then answers for repository 4. *)
Definition example_world : World :=
  {| net := [repos_page; teams_page; members_page; contributors_page; no_content];
     io := start_io 0;
     fs := {[ "out.csv" := example_file ]} |}.

(** The world when the example run enters the loop. *)
Definition example_loop_world : World :=
  {| net := [contributors_page; no_content];
     io := start_io 0;
     fs := {[ "out.csv" := example_file ]} |}.



(** A file whose header has no id column, and one with an id that is not
    a number. *)
Definition headless_files : gmap string string :=
  {[ "out.csv" := String.concat "" (excel_writerow <$> [["name"; "size"]; ["a"; "10"]]) ]}.

Definition damaged_files : gmap string string :=
  {[ "out.csv" :=
       String.concat ""
         (excel_writerow <$>
            [field_names;
             ["a"; "1"; "10"; "0"; "0"; "0"; ""; ""];
             ["b"; "two"; "10"; "0"; "0"; "0"; ""; ""]]) ]}.


(** The repositories the server lists, the urls the example run
    requests, and the line it writes for repository 4. *)
Definition example_repos : list JValue :=
  [example_repo 1 "a"; example_repo 2 "b"; example_repo 3 "c"; example_repo 4 "d"].




Definition example_contributors_url : string :=
  "https://api.github.com/repos/acme/d/contributors?sort=full_name&per_page=100&page=1".

Definition example_stats_url : string :=
  "https://api.github.com/repos/acme/d/stats/participation".


(** [n] pages that each link to a next page, and a last page. *)
Definition chain (n : nat) : list Response := replicate n page_1 ++ [page_2].

Definition chain_items (n : nat) : list (list JValue) :=
  replicate n [JInt 1; JInt 2] ++ [[JInt 3]].

(** ** Specification vocabulary *)

Definition is_get (ev : Event) : bool :=
  match ev with
  | Get _ _ => true
  | _ => false
  end.

(** The number of HTTP requests in a trace. *)
Definition attempts (evs : list Event) : nat := length (List.filter is_get evs).

(** The events of failed attempts on [url] that slept [ds]. *)
Fixpoint retry_events (url : string) (request_headers : RequestHeaders)
    (ds : list Z) : list Event :=
  match ds with
  | [] => []
  | d :: ds' => Get url request_headers :: Sleep d :: retry_events url request_headers ds'
  end.

(** The state after failed attempts on [url] that slept [ds]. *)
Definition after_retries (s : IO) (url : string) (request_headers : RequestHeaders)
    (ds : list Z) : IO :=
  {| clock := clock s;
     ticks := ticks s + length ds;
     trace := trace s ++ retry_events url request_headers ds |}.

(** The state after requests that added [evs] to the trace. *)
Definition after_events (s : IO) (evs : list Event) : IO :=
  {| clock := clock s; ticks := ticks s; trace := trace s ++ evs |}.

(** The request of the event, if it is one, was sent with these headers. *)
Definition sent_with (request_headers : RequestHeaders) (ev : Event) : Prop :=
  match ev with
  | Get _ h => h = request_headers
  | _ => True
  end.

(** What a request may do to the network script and to the state: it
    consumes the responses [used] from the front of the script, adds [evs]
    to the trace, leaves the clock oracle alone, sends every request with
    [request_headers], and makes one request per response consumed (one
    more when the script ran out). *)
Definition accounted (request_headers : RequestHeaders) (net : list Response)
    (s : IO) (out : Outcome JValue) : Prop :=
  ∃ used evs,
    net = (used ++ out.1.2)%list ∧
    trace out.2 = (trace s ++ evs)%list ∧
    clock out.2 = clock s ∧
    Forall (sent_with request_headers) evs ∧
    (attempts evs = length used ∨
     (out.1.1 = Raise ConnectionError ∧ out.1.2 = [] ∧
      attempts evs = S (length used))).

(** The job leaves every world related by [R] to the world it ends in,
    whether it returns or raises. *)
Definition job_keeps {A : Type} (R : World → World → Prop) (m : Job A) : Prop :=
  ∀ w, R w (m w).2.

(** No path but [target] has changed from [w] to [w']. *)
Definition only_touches (target : string) (w w' : World) : Prop :=
  ∀ path, path ≠ target → fs w' !! path = fs w !! path.

(** From [w] to [w'] the trace has grown by events whose requests were
    all sent with [request_headers]. *)
Definition sends_with (request_headers : RequestHeaders) (w w' : World) : Prop :=
  ∃ evs,
    trace (io w') = (trace (io w) ++ evs)%list ∧
    Forall (sent_with request_headers) evs.

(** The sum of a list of integers. *)
Definition total (l : list Z) : Z := foldr Z.add 0 l.

(** [row] with other commit counts. *)
Definition with_counts (row : RepoRow) (last_3 last_52 : Z) : RepoRow :=
  {| repo_name := repo_name row;
     repo_id := repo_id row;
     repo_size := repo_size row;
     last_3_weeks_commit_count := last_3;
     last_52_weeks_commit_count := last_52;
     contributor_count := contributor_count row;
     contributor_handles := contributor_handles row;
     team_names := team_names row |}.

(** [recent] is the last [n] entries of [weekly], all of them when there
    are fewer. *)
Definition last_entries (n : nat) (weekly recent : list Z) : Prop :=
  ∃ older,
    weekly = (older ++ recent)%list ∧
    (length recent = n ∨ (older = [] ∧ (length recent ≤ n)%nat)).

(** The repositories of a list, given with their ids, whose id is not
    among [recorded], in the order of the list. *)
Definition unrecorded (recorded : list Z) (repos : list JValue) (ids : list Z)
    : list JValue :=
  (filter (fun p => p.2 ∉ recorded) (zip repos ids)).*1.

Section Vocabulary.
Context `{!Builtins, !Platform, !Csv}.

(** The header [name] of [r] is there and [int] accepts it. *)
Definition integer_header (r : Response) (name : string) : Prop :=
  ∃ v z, headers r !! name = Some v ∧ py_int v = Some z.

Definition rate_limit_headers (r : Response) : Prop :=
  integer_header r HEADER_RATELIMIT_LIMIT ∧
  integer_header r HEADER_RATELIMIT_REMAINING ∧
  integer_header r HEADER_RATELIMIT_RESET.

(** When the quota of [r] is below the floor, its reset time is one
    [localtime] accepts. *)
Definition reset_readable (r : Response) : Prop :=
  ∀ rem rst,
    header_int r HEADER_RATELIMIT_REMAINING = Ok rem →
    header_int r HEADER_RATELIMIT_RESET = Ok rst →
    rem < MIN_RATE_LIMIT_REMAINING →
    localtime_error rst = None.

(** [r] is a failed response to which the policy answers [d] when the
    clock reads [now]: it carries the three integer headers, its reset
    time (when the quota is below the floor) is one [localtime] accepts,
    and [d] is a duration [time.sleep] accepts. *)
Definition failed_with (r : Response) (now d : Z) : Prop :=
  status_code r ≠ 200 ∧ status_code r ≠ 204 ∧
  ∃ lim rem rst,
    header_int r HEADER_RATELIMIT_LIMIT = Ok lim ∧
    header_int r HEADER_RATELIMIT_REMAINING = Ok rem ∧
    header_int r HEADER_RATELIMIT_RESET = Ok rst ∧
    d = (if rem <? MIN_RATE_LIMIT_REMAINING then rst - now else RETRY_SLEEP_DEFAULT) ∧
    (rem < MIN_RATE_LIMIT_REMAINING → localtime_error rst = None) ∧
    0 ≤ d ≤ sleep_max.

(** Consecutive failed responses, the first one met when the clock has
    been read [t] times, and the durations slept after each. *)
Fixpoint failures (clk : nat → Z) (t : nat) (rs : list Response) (ds : list Z) : Prop :=
  match rs, ds with
  | [], [] => True
  | r :: rs', d :: ds' => failed_with r (clk t) d ∧ failures clk (S t) rs' ds'
  | _, _ => False
  end.

(** A 200 response whose body is the list [items], with the given link to
    a next page. *)
Definition page (r : Response) (items : list JValue) (next : option string) : Prop :=
  status_code r = 200 ∧ json r = Some (JList items) ∧ links r !! "next" = next.

(** Pages that each link to the next one, the last one to [last]. *)
Inductive linked (url : string) :
    list Response → list (list JValue) → string → Prop :=
| linked_nil : linked url [] [] url
| linked_cons r items u rs itemss last :
    page r items (Some u) →
    linked u rs itemss last →
    linked url (r :: rs) (items :: itemss) last.

(** A sequence of pages that ends in a page with no "next" link. *)
Inductive paginated : list Response → list (list JValue) → Prop :=
| paginated_last r items :
    page r items None → paginated [r] [items]
| paginated_next r items u rs itemss :
    page r items (Some u) →
    paginated rs itemss →
    paginated (r :: rs) (items :: itemss).

(** The requests made for a sequence of pages, from [url]. *)
Fixpoint fetches (url : string) (request_headers : RequestHeaders)
    (rs : list Response) : list Event :=
  match rs with
  | [] => []
  | r :: rs' =>
      Get url request_headers ::
        match links r !! "next" with
        | Some u => fetches u request_headers rs'
        | None => []
        end
  end.

(** What [_process_successful_result] makes of the outcome of the request
    for the next page, [items] being the current page. *)
Definition extend_with (items : list JValue) (o : Outcome JValue) : Outcome JValue :=
  let '(r, net', s') := o in
  match r with
  | Raise e => (Raise e, net', s')
  | Ok additional_results =>
      if truthy additional_results then
        match additional_results with
        | JList more => (Ok (JList (items ++ more)), net', s')
        | _ => (Raise AssertionError, net', s')
        end
      else (Ok (JList items), net', s')
  end.

(** The cell of column [i], when the record has one that is not empty. *)
Definition id_cell (i : nat) (record : list string) : option string :=
  match record !! i with
  | Some cell => if String.eqb cell "" then None else Some cell
  | None => None
  end.

(** The ids of column [i], when [int] accepts every cell of it. *)
Definition column_ids (i : nat) (records : list (list string)) : option (list Z) :=
  mapM py_int (omap (id_cell i) records).

(** Pages as in [paginated], each one answered after fewer than twenty
    failed responses; [t] counts the clock readings before the first. *)
Inductive flaky_pages (clk : nat → Z) :
    nat → list Response → list (list JValue) → Prop :=
| flaky_last t fs ds r items :
    failures clk t fs ds →
    (length fs < MAX_NB_RETRIES)%nat →
    page r items None →
    flaky_pages clk t (fs ++ [r]) [items]
| flaky_next t fs ds r items u rs itemss :
    failures clk t fs ds →
    (length fs < MAX_NB_RETRIES)%nat →
    page r items (Some u) →
    flaky_pages clk (t + length fs) rs itemss →
    flaky_pages clk t (fs ++ r :: rs) (items :: itemss).

(** [int] reads back what [str] prints for the integer [z], which is not
    the empty string. *)
Definition reads_back (z : Z) : Prop :=
  py_int (py_str (JInt z)) = Some z ∧ py_str (JInt z) ≠ "".

(** The login [k] is the one of a contributor of the list. *)
Definition login_of (contributors : list JValue) (k : Key) : Prop :=
  ∃ contributor login,
    contributor ∈ contributors ∧
    getitem contributor "login" = Ok login ∧
    hashable login = Ok k.

(** The text of the lines the writer emits for the rows, in order. *)
Fixpoint lines_of (rows : list RepoRow) : string :=
  match rows with
  | [] => ""
  | row :: rest => csv_writerow (row_cells row) +:+ lines_of rest
  end.

(** Every file of [w] is in [w'] with its text, followed by the lines the
    csv writer gave for some rows. *)
Definition only_appends (w w' : World) : Prop :=
  ∀ path text,
    fs w !! path = Some text →
    ∃ rows, fs w' !! path = Some (text +:+ lines_of rows).

(** What the job fetches and builds for repositories it does not skip, one
    after the other, from the responses [net] and the state [s]: the rows
    built until the end of the list or the first exception, the result,
    and the responses and the state left. *)
Inductive fetched_rows (request_headers : RequestHeaders)
    (teams : list (Key * gset Key)) :
    list JValue → list Response → IO →
    list RepoRow → Result unit → list Response → IO → Prop :=
| fetched_all net s :
    fetched_rows request_headers teams [] net s [] (Ok ()) net s
| fetched_row repo repos net s full_name contributors net1 s1 stats net2 s2
    row rows res net' s' :
    getitem repo "full_name" = Ok full_name →
    get_contributors net full_name request_headers s = (Ok contributors, net1, s1) →
    get_participation_stats net1 full_name request_headers s1 = (Ok stats, net2, s2) →
    build_repo_row repo (or_empty_list contributors) stats teams = Ok row →
    fetched_rows request_headers teams repos net2 s2 rows res net' s' →
    fetched_rows request_headers teams (repo :: repos) net s (row :: rows) res net' s'
| fetched_no_name repo repos net s e :
    getitem repo "full_name" = Raise e →
    fetched_rows request_headers teams (repo :: repos) net s [] (Raise e) net s
| fetched_no_contributors repo repos net s full_name e net1 s1 :
    getitem repo "full_name" = Ok full_name →
    get_contributors net full_name request_headers s = (Raise e, net1, s1) →
    fetched_rows request_headers teams (repo :: repos) net s [] (Raise e) net1 s1
| fetched_no_stats repo repos net s full_name contributors net1 s1 e net2 s2 :
    getitem repo "full_name" = Ok full_name →
    get_contributors net full_name request_headers s = (Ok contributors, net1, s1) →
    get_participation_stats net1 full_name request_headers s1 = (Raise e, net2, s2) →
    fetched_rows request_headers teams (repo :: repos) net s [] (Raise e) net2 s2
| fetched_no_row repo repos net s full_name contributors net1 s1 stats net2 s2 e :
    getitem repo "full_name" = Ok full_name →
    get_contributors net full_name request_headers s = (Ok contributors, net1, s1) →
    get_participation_stats net1 full_name request_headers s1 = (Ok stats, net2, s2) →
    build_repo_row repo (or_empty_list contributors) stats teams = Raise e →
    fetched_rows request_headers teams (repo :: repos) net s [] (Raise e) net2 s2.

End Vocabulary.

(** ** The fetcher *)

Section Fetcher_properties.
Context `{!Builtins, !Platform, !Csv}.

(** *** The retry policy *)

Lemma header_int_Ok r name z :
  header_int r name = Ok z ↔ ∃ v, headers r !! name = Some v ∧ py_int v = Some z.
Proof.
  unfold header_int. split.
  - destruct (headers r !! name) as [v|]; [|discriminate].
    destruct (py_int v) as [z'|] eqn:E; [|discriminate].
    intros [= <-]. eauto.
  - intros (v & -> & ->). reflexivity.
Qed.

Lemma integer_header_Ok r name :
  integer_header r name ↔ ∃ z, header_int r name = Ok z.
Proof.
  unfold integer_header. split.
  - intros (v & z & Hv & Hz). exists z. apply header_int_Ok. eauto.
  - intros (z & Hz). apply header_int_Ok in Hz as (v & ? & ?). eauto.
Qed.

Lemma header_int_error r name :
  ¬ integer_header r name →
  ∃ e, (e = KeyError ∨ e = ValueError) ∧ header_int r name = Raise e.
Proof.
  intros Hno. unfold header_int.
  destruct (headers r !! name) as [v|] eqn:Hv; [|eauto].
  destruct (py_int v) as [z|] eqn:Hz; [|eauto].
  destruct Hno. exists v, z. eauto.
Qed.

Lemma sleep_duration_Ok r s lim rem rst :
  header_int r HEADER_RATELIMIT_LIMIT = Ok lim →
  header_int r HEADER_RATELIMIT_REMAINING = Ok rem →
  header_int r HEADER_RATELIMIT_RESET = Ok rst →
  _sleep_duration r s =
    (if rem <? MIN_RATE_LIMIT_REMAINING
     then match localtime_error rst with
          | Some e => Raise e
          | None => Ok (rst - clock s (ticks s))
          end
     else Ok RETRY_SLEEP_DEFAULT,
     (time_time s).2).
Proof.
  intros Hlim Hrem Hrst. unfold _sleep_duration.
  rewrite Hlim, Hrem, Hrst. simpl.
  destruct (rem <? MIN_RATE_LIMIT_REMAINING); [|reflexivity].
  by destruct (localtime_error rst).
Qed.

Lemma sleep_duration_error r s :
  ¬ rate_limit_headers r →
  ∃ e, (e = KeyError ∨ e = ValueError) ∧ _sleep_duration r s = (Raise e, s).
Proof.
  intros Hno. unfold _sleep_duration.
  destruct (header_int r HEADER_RATELIMIT_LIMIT) as [lim|e1] eqn:Hlim; simpl.
  - destruct (header_int r HEADER_RATELIMIT_REMAINING) as [rem|e2] eqn:Hrem; simpl.
    + destruct (header_int r HEADER_RATELIMIT_RESET) as [rst|e3] eqn:Hrst; simpl.
      * destruct Hno. repeat split; apply integer_header_Ok; eauto.
      * destruct (header_int_error r HEADER_RATELIMIT_RESET) as (e & He & Heq).
        { intros Hi. apply integer_header_Ok in Hi as [z Hz]. congruence. }
        exists e. split; [done|]. congruence.
    + destruct (header_int_error r HEADER_RATELIMIT_REMAINING) as (e & He & Heq).
      { intros Hi. apply integer_header_Ok in Hi as [z Hz]. congruence. }
      exists e. split; [done|]. congruence.
  - destruct (header_int_error r HEADER_RATELIMIT_LIMIT) as (e & He & Heq).
    { intros Hi. apply integer_header_Ok in Hi as [z Hz]. congruence. }
    exists e. split; [done|]. congruence.
Qed.

Lemma sleep_duration_failed r s d :
  failed_with r (clock s (ticks s)) d →
  _sleep_duration r s = (Ok d, (time_time s).2).
Proof.
  intros (_ & _ & lim & rem & rst & Hlim & Hrem & Hrst & -> & Hlocal & _).
  rewrite (sleep_duration_Ok r s lim rem rst) by done.
  destruct (Z.ltb_spec rem MIN_RATE_LIMIT_REMAINING) as [Hlt|_]; [|done].
  by rewrite (Hlocal Hlt).
Qed.

Lemma time_sleep_Ok d s :
  0 ≤ d ≤ sleep_max → time_sleep d s = (Ok (), emit (Sleep d) s).
Proof.
  intros [Hpos Hmax]. unfold time_sleep.
  destruct (Z.ltb_spec d (- sleep_max)); [lia|].
  destruct (Z.ltb_spec sleep_max d); [lia|]. simpl.
  destruct (Z.ltb_spec d 0); [lia|done].
Qed.

Lemma time_sleep_negative d s :
  d < 0 →
  ∃ e, (e = ValueError ∨ e = OverflowError) ∧ time_sleep d s = (Raise e, s).
Proof.
  intros Hneg. unfold time_sleep.
  destruct ((d <? - sleep_max) || (sleep_max <? d)); [eauto|].
  destruct (Z.ltb_spec d 0); [eauto|lia].
Qed.

(** *** The retry loop *)

Lemma run_request_loop_exhausted depth net url request_headers is_paginated
    failure_count codes s :
  (MAX_NB_RETRIES ≤ failure_count)%nat →
  run_request_loop depth net url request_headers is_paginated failure_count codes s =
    (Ok JNull, net, emit (LogError url codes) s).
Proof.
  intros Hmax.
  assert ((failure_count <? MAX_NB_RETRIES)%nat = false) as Hlt
    by (apply Nat.ltb_ge; done).
  destruct net; simpl; rewrite Hlt; reflexivity.
Qed.

Lemma run_request_loop_empty depth url request_headers is_paginated failure_count
    codes s :
  (failure_count < MAX_NB_RETRIES)%nat →
  run_request_loop depth [] url request_headers is_paginated failure_count codes s =
    (Raise ConnectionError, [], emit (Get url request_headers) s).
Proof.
  intros Hlt. apply Nat.ltb_lt in Hlt. simpl. rewrite Hlt. reflexivity.
Qed.

Lemma run_request_loop_200 depth r net url request_headers is_paginated
    failure_count codes s :
  (failure_count < MAX_NB_RETRIES)%nat →
  status_code r = 200 →
  run_request_loop depth (r :: net) url request_headers is_paginated
    failure_count codes s =
    _process_successful_result (next_request depth net) r request_headers
      is_paginated net (emit (Get url request_headers) s).
Proof.
  intros Hlt Hst. apply Nat.ltb_lt in Hlt. simpl. rewrite Hlt, Hst. reflexivity.
Qed.

Lemma run_request_loop_204 depth r net url request_headers is_paginated
    failure_count codes s :
  (failure_count < MAX_NB_RETRIES)%nat →
  status_code r = 204 →
  run_request_loop depth (r :: net) url request_headers is_paginated
    failure_count codes s =
    (Ok JNull, net, emit (Get url request_headers) s).
Proof.
  intros Hlt Hst. apply Nat.ltb_lt in Hlt. simpl. rewrite Hlt, Hst. reflexivity.
Qed.

Lemma run_request_loop_failed depth r net url request_headers is_paginated
    failure_count codes s :
  (failure_count < MAX_NB_RETRIES)%nat →
  status_code r ≠ 200 →
  status_code r ≠ 204 →
  run_request_loop depth (r :: net) url request_headers is_paginated
    failure_count codes s =
    match _sleep_duration r (emit (Get url request_headers) s) with
    | (Raise e, s1) => (Raise e, net, s1)
    | (Ok seconds, s1) =>
        match time_sleep seconds s1 with
        | (Raise e, s2) => (Raise e, net, s2)
        | (Ok _, s2) =>
            run_request_loop depth net url request_headers is_paginated
              (S failure_count) (codes ∪ {[status_code r]}) s2
        end
    end.
Proof.
  intros Hlt H200 H204. apply Nat.ltb_lt in Hlt.
  apply Z.eqb_neq in H200. apply Z.eqb_neq in H204.
  simpl. rewrite Hlt, H200, H204. reflexivity.
Qed.

Lemma run_request_loop_failures rs :
  ∀ ds depth net url request_headers is_paginated failure_count codes s,
    failures (clock s) (ticks s) rs ds →
    (failure_count + length rs ≤ MAX_NB_RETRIES)%nat →
    run_request_loop depth (rs ++ net) url request_headers is_paginated
      failure_count codes s =
      run_request_loop depth net url request_headers is_paginated
        (failure_count + length rs)
        (codes ∪ list_to_set (status_code <$> rs))
        (after_retries s url request_headers ds).
Proof.
  induction rs as [|r rs IH]; intros ds depth net url hdrs pag fc codes s Hf Hlen.
  - destruct ds; [|done]. simpl.
    rewrite Nat.add_0_r, (right_id_L ∅ (∪)).
    f_equal. destruct s. unfold after_retries. simpl.
    rewrite Nat.add_0_r, app_nil_r. reflexivity.
  - destruct ds as [|d ds]; [done|].
    destruct Hf as [Hr Hf].
    pose proof Hr as (H200 & H204 & lim & rem & rst & _ & _ & _ & _ & _ & Hd).
    simpl in Hlen.
    rewrite <- app_comm_cons, run_request_loop_failed by (done || lia).
    rewrite (sleep_duration_failed r (emit (Get url hdrs) s) d) by exact Hr.
    rewrite time_sleep_Ok by done.
    rewrite (IH ds) by (done || simpl; lia).
    f_equal.
    + simpl. lia.
    + simpl. rewrite <- (assoc_L (∪)). reflexivity.
    + unfold after_retries, emit. simpl. f_equal.
      * lia.
      * rewrite <- !app_assoc. reflexivity.
Qed.

Lemma failures_length clk t rs ds : failures clk t rs ds → length ds = length rs.
Proof.
  revert t ds. induction rs as [|r rs IH]; intros t [|d ds]; simpl; try done.
  intros [_ Hf]. f_equal. eauto.
Qed.

Lemma attempts_retry_events url request_headers ds :
  attempts (retry_events url request_headers ds) = length ds.
Proof.
  unfold attempts. induction ds as [|d ds IH]; simpl; [done|].
  f_equal. done.
Qed.

Lemma attempts_app evs1 evs2 : attempts (evs1 ++ evs2) = (attempts evs1 + attempts evs2)%nat.
Proof. unfold attempts. rewrite List.filter_app, length_app. reflexivity. Qed.

(** Twenty failed responses exhaust the request. *)
Lemma run_request_loop_gives_up rs ds depth net url request_headers is_paginated s :
  failures (clock s) (ticks s) rs ds →
  length rs = MAX_NB_RETRIES →
  run_request_loop depth (rs ++ net) url request_headers is_paginated 0 ∅ s =
    (Ok JNull, net,
     emit (LogError url (list_to_set (status_code <$> rs)))
       (after_retries s url request_headers ds)).
Proof.
  intros Hf Hlen.
  rewrite (run_request_loop_failures rs ds) by (done || simpl; lia).
  rewrite run_request_loop_exhausted by (simpl; lia).
  rewrite (left_id_L ∅ (∪)). reflexivity.
Qed.

Lemma run_request_exhausted rs ds net url request_headers is_paginated s :
  failures (clock s) (ticks s) rs ds →
  length rs = MAX_NB_RETRIES →
  run_request (rs ++ net) url request_headers is_paginated s =
    (Ok JNull, net,
     emit (LogError url (list_to_set (status_code <$> rs)))
       (after_retries s url request_headers ds)).
Proof. apply run_request_loop_gives_up. Qed.

(** *** Pagination *)

Lemma process_page run r items u request_headers net s :
  page r items (Some u) →
  _process_successful_result run r request_headers true net s =
    extend_with items (run u request_headers true s).
Proof.
  intros (Hst & Hjson & Hnext). unfold _process_successful_result, extend_with.
  rewrite Hst, Hjson, Hnext. simpl.
  destruct (run u request_headers true s) as [[[v|e] net'] s']; [|done].
  destruct (truthy v); [|done]. destruct v; done.
Qed.

Lemma process_unlinked run r body request_headers is_paginated net s :
  status_code r = 200 →
  json r = Some body →
  (is_paginated = true → links r !! "next" = None) →
  _process_successful_result run r request_headers is_paginated net s = (Ok body, net, s).
Proof.
  intros Hst Hjson Hnext. unfold _process_successful_result.
  rewrite Hst, Hjson. simpl.
  destruct is_paginated; [rewrite Hnext|]; done.
Qed.

Lemma process_not_list run r body u request_headers net s :
  status_code r = 200 →
  json r = Some body →
  (∀ items, body ≠ JList items) →
  links r !! "next" = Some u →
  _process_successful_result run r request_headers true net s =
    (Raise AssertionError, net, s).
Proof.
  intros Hst Hjson Hbody Hnext. unfold _process_successful_result.
  rewrite Hst, Hjson, Hnext. simpl.
  destruct body; try done. by destruct (Hbody items).
Qed.

Lemma extend_with_extend a b o :
  extend_with a (extend_with b o) = extend_with (a ++ b) o.
Proof.
  destruct o as [[[v|e] net] s]; [|done]. simpl.
  destruct (truthy v) eqn:Hv.
  - destruct v; try done. simpl in *.
    destruct items as [|x more]; [done|].
    destruct b; simpl; by rewrite <- ?app_assoc.
  - simpl. destruct b; simpl; [by rewrite app_nil_r|done].
Qed.

Lemma after_events_emit s ev evs :
  after_events (emit ev s) evs = after_events s (ev :: evs).
Proof. unfold after_events, emit. simpl. by rewrite <- app_assoc. Qed.

(** Pages that each link to the next are followed while the stack has
    room; what is returned is what the call for the last link gives,
    extended by their items. *)
Lemma run_request_loop_linked url rs itemss last :
  linked url rs itemss last →
  rs ≠ [] →
  ∀ depth net request_headers s,
    (length rs ≤ S depth)%nat →
    run_request_loop depth (rs ++ net) url request_headers true 0 ∅ s =
      extend_with (concat itemss)
        (next_request (S depth - length rs) net last request_headers true
           (after_events s (fetches url request_headers rs))).
Proof.
  induction 1 as [|url r items u rs itemss last Hp Hl IH]; [done|].
  intros _ depth net hdrs s Hlen.
  rewrite <- app_comm_cons, run_request_loop_200
    by (unfold MAX_NB_RETRIES; lia || apply Hp).
  rewrite (process_page _ _ items u) by done.
  simpl fetches. destruct Hp as (_ & _ & ->).
  destruct Hl as [|r' items' u' rs' itemss' last' Hp' Hl'].
  - simpl. rewrite app_nil_r, Nat.sub_0_r. reflexivity.
  - destruct depth as [|depth]; [simpl in Hlen; lia|].
    unfold next_request at 1.
    rewrite IH by (done || simpl in *; lia).
    rewrite extend_with_extend, after_events_emit. reflexivity.
Qed.

Lemma run_request_linked url rs itemss last net request_headers s :
  linked url rs itemss last →
  rs ≠ [] →
  (length rs ≤ recursion_depth)%nat →
  run_request (rs ++ net) url request_headers true s =
    extend_with (concat itemss)
      (run_request_loop (recursion_depth - length rs) net last request_headers true
         0 ∅ (after_events s (fetches url request_headers rs))).
Proof.
  intros Hl Hne Hlen. unfold run_request.
  rewrite (run_request_loop_linked url rs itemss last) by (done || lia).
  by replace (S recursion_depth - length rs)%nat
    with (S (recursion_depth - length rs)) by lia.
Qed.

Lemma paginated_fetch rs itemss :
  paginated rs itemss →
  ∀ depth net url request_headers s,
    (length rs ≤ S depth)%nat →
    run_request_loop depth (rs ++ net) url request_headers true 0 ∅ s =
      (Ok (JList (concat itemss)), net,
       after_events s (fetches url request_headers rs)).
Proof.
  induction 1 as [r items Hp|r items u rs itemss Hp Hps IH];
    intros depth net url hdrs s Hlen.
  - simpl app. rewrite run_request_loop_200
      by (unfold MAX_NB_RETRIES; lia || apply Hp).
    destruct Hp as (Hst & Hjson & Hnext).
    rewrite (process_unlinked _ _ (JList items)) by done.
    simpl. rewrite Hnext, app_nil_r. reflexivity.
  - rewrite <- app_comm_cons, run_request_loop_200
      by (unfold MAX_NB_RETRIES; lia || apply Hp).
    rewrite (process_page _ _ items u) by done.
    destruct depth as [|depth]; [destruct Hps; simpl in Hlen; lia|].
    unfold next_request. rewrite IH by (simpl in Hlen; lia).
    simpl. destruct Hp as (_ & _ & ->).
    rewrite after_events_emit.
    destruct (concat itemss); simpl; by rewrite ?app_nil_r.
Qed.

Lemma paginated_too_deep rs itemss :
  paginated rs itemss →
  ∀ depth net url request_headers s,
    (S depth < length rs)%nat →
    run_request_loop depth (rs ++ net) url request_headers true 0 ∅ s =
      (Raise RecursionError, (drop (S depth) rs ++ net)%list,
       after_events s (fetches url request_headers (take (S depth) rs))).
Proof.
  induction 1 as [r items Hp|r items u rs itemss Hp Hps IH];
    intros depth net url hdrs s Hlen; [simpl in Hlen; lia|].
  rewrite <- app_comm_cons, run_request_loop_200
    by (unfold MAX_NB_RETRIES; lia || apply Hp).
  rewrite (process_page _ _ items u) by done.
  destruct Hp as (_ & _ & Hnext).
  destruct depth as [|depth].
  - simpl. rewrite Hnext. rewrite drop_0. reflexivity.
  - unfold next_request. rewrite IH by (simpl in Hlen; lia).
    simpl. rewrite Hnext, after_events_emit. reflexivity.
Qed.

(** *** The claims on the fetcher *)

(** C1.  For a sequence of paginated 200 responses that ends in a page
    with no "next" link, [run_request] with [is_paginated] set returns the
    concatenation of the pages' items in fetch order, by one request per
    page, as long as the stack has room for a call per page; for a longer
    sequence the call for the first page past that raises
    [RecursionError]: nothing is returned and the rest is not fetched. *)
Theorem paginated_fetch_concatenates rs itemss net url request_headers s :
  paginated rs itemss →
  ((length rs ≤ S recursion_depth)%nat →
   run_request (rs ++ net) url request_headers true s =
     (Ok (JList (concat itemss)), net,
      after_events s (fetches url request_headers rs))) ∧
  ((S recursion_depth < length rs)%nat →
   run_request (rs ++ net) url request_headers true s =
     (Raise RecursionError, (drop (S recursion_depth) rs ++ net)%list,
      after_events s (fetches url request_headers (take (S recursion_depth) rs)))).
Proof.
  intros Hpages. split; intros Hlen; unfold run_request.
  - by apply paginated_fetch.
  - by apply (paginated_too_deep rs itemss).
Qed.

(** C2, as amended.  When every failed response carries the three integer
    rate-limit headers, has a reset time [localtime] accepts if its quota
    is below the floor, and gives a duration [time.sleep] accepts: twenty
    such responses make [run_request] request exactly twenty times, report
    the failure and return [None]; and when the response to attempt k ≤ 20
    is a 204 or a 200 after k-1 such failures, exactly k requests are made
    for the target and the retry loop ends there: with [None] for a 204,
    with the outcome of the request answered by the 200 at once for a 200,
    which is its body when no "next" link is followed. *)
Theorem retry_ceiling :
  (∀ rs ds net url request_headers is_paginated s,
     failures (clock s) (ticks s) rs ds →
     length rs = MAX_NB_RETRIES →
     run_request (rs ++ net) url request_headers is_paginated s =
       (Ok JNull, net,
        emit (LogError url (list_to_set (status_code <$> rs)))
          (after_retries s url request_headers ds)) ∧
     attempts (retry_events url request_headers ds) = 20%nat) ∧
  (∀ rs ds r net url request_headers is_paginated s,
     failures (clock s) (ticks s) rs ds →
     (length rs < MAX_NB_RETRIES)%nat →
     let s' := after_retries s url request_headers ds in
     attempts (retry_events url request_headers ds ++ [Get url request_headers])
       = S (length rs) ∧
     (status_code r = 204 →
      run_request (rs ++ r :: net) url request_headers is_paginated s =
        (Ok JNull, net, emit (Get url request_headers) s')) ∧
     (status_code r = 200 →
      run_request (rs ++ r :: net) url request_headers is_paginated s =
        run_request (r :: net) url request_headers is_paginated s') ∧
     (∀ body,
        status_code r = 200 →
        json r = Some body →
        (is_paginated = true → links r !! "next" = None) →
        run_request (rs ++ r :: net) url request_headers is_paginated s =
          (Ok body, net, emit (Get url request_headers) s'))).
Proof.
  split.
  - intros rs ds net url hdrs pag s Hf Hlen. split.
    + by apply run_request_exhausted.
    + rewrite attempts_retry_events, (failures_length _ _ _ _ Hf). done.
  - intros rs ds r net url hdrs pag s Hf Hlen s'.
    split; [|split; [|split]].
    + rewrite attempts_app, attempts_retry_events, (failures_length _ _ _ _ Hf).
      change (attempts [Get url hdrs]) with 1%nat. lia.
    + intros Hst. unfold run_request.
      rewrite (run_request_loop_failures rs ds) by (done || simpl; lia).
      by rewrite run_request_loop_204 by (done || simpl; lia).
    + intros Hst. unfold run_request.
      rewrite (run_request_loop_failures rs ds) by (done || simpl; lia).
      by rewrite !run_request_loop_200 by (done || simpl; unfold MAX_NB_RETRIES; lia).
    + intros body Hst Hjson Hnext. unfold run_request.
      rewrite (run_request_loop_failures rs ds) by (done || simpl; lia).
      rewrite run_request_loop_200 by (done || simpl; lia).
      by apply process_unlinked.
Qed.

(** C3.  For a failed response that carries the three integer rate-limit
    headers: when the remaining quota is at least 10, [_sleep_duration]
    returns the default of 5 seconds; when it is below 10 and the reset
    time is one [localtime] accepts, it returns the reset epoch minus the
    current time as it is.  Past the reset that is a negative number, not
    0: [run_request] hands it to [time.sleep], which raises, and the
    request is given up after the one attempt. *)
Theorem sleep_duration_policy r s lim rem rst :
  header_int r HEADER_RATELIMIT_LIMIT = Ok lim →
  header_int r HEADER_RATELIMIT_REMAINING = Ok rem →
  header_int r HEADER_RATELIMIT_RESET = Ok rst →
  let now := clock s (ticks s) in
  (MIN_RATE_LIMIT_REMAINING ≤ rem →
   (_sleep_duration r s).1 = Ok RETRY_SLEEP_DEFAULT) ∧
  (rem < MIN_RATE_LIMIT_REMAINING →
   localtime_error rst = None →
   (_sleep_duration r s).1 = Ok (rst - now)) ∧
  (rem < MIN_RATE_LIMIT_REMAINING →
   localtime_error rst = None →
   rst < now →
   (_sleep_duration r s).1 ≠ Ok (Z.max 0 (rst - now)) ∧
   ∀ net url request_headers is_paginated,
     status_code r ≠ 200 →
     status_code r ≠ 204 →
     ∃ e, (e = ValueError ∨ e = OverflowError) ∧
       (run_request (r :: net) url request_headers is_paginated s).1 =
         (Raise e, net)).
Proof.
  intros Hlim Hrem Hrst now.
  assert (rem < MIN_RATE_LIMIT_REMAINING → localtime_error rst = None →
          ∀ s0, clock s0 = clock s → ticks s0 = ticks s →
                _sleep_duration r s0 = (Ok (rst - now), (time_time s0).2)) as Hbelow.
  { intros Hcmp Hlocal s0 Hclock Hticks.
    rewrite (sleep_duration_Ok r s0 lim rem rst) by done.
    destruct (Z.ltb_spec rem MIN_RATE_LIMIT_REMAINING); [|lia].
    rewrite Hlocal. unfold now. by rewrite Hclock, Hticks. }
  split; [|split].
  - intros Hcmp. rewrite (sleep_duration_Ok r s lim rem rst) by done. simpl.
    destruct (Z.ltb_spec rem MIN_RATE_LIMIT_REMAINING); [lia|done].
  - intros Hcmp Hlocal. by rewrite (Hbelow Hcmp Hlocal s).
  - intros Hcmp Hlocal Hpast. split.
    + rewrite (Hbelow Hcmp Hlocal s) by done. simpl. intros [= Heq]. lia.
    + intros net url hdrs pag H200 H204. unfold run_request.
      rewrite run_request_loop_failed by (done || unfold MAX_NB_RETRIES; lia).
      rewrite (Hbelow Hcmp Hlocal (emit (Get url hdrs) s)) by done.
      match goal with |- context [time_sleep _ ?s1] =>
        destruct (time_sleep_negative (rst - now) s1) as (e & He & ->); [lia|]
      end.
      by exists e.
Qed.

(** C4, as amended.  When the retries of the request's own target are
    exhausted, [run_request] reports the failure and returns [None]; when
    they are exhausted on a "next" page, after pages that each linked to
    the next (no more of them than the stack has room for), it reports the
    failure and returns the items of the pages fetched before.  The failed
    responses are such that the retries go on, as in C2. *)
Theorem exhaustion_keeps_fetched_pages :
  (∀ fs ds net url request_headers is_paginated s,
     failures (clock s) (ticks s) fs ds →
     length fs = MAX_NB_RETRIES →
     run_request (fs ++ net) url request_headers is_paginated s =
       (Ok JNull, net,
        emit (LogError url (list_to_set (status_code <$> fs)))
          (after_retries s url request_headers ds))) ∧
  (∀ rs itemss last fs ds net url request_headers s,
     linked url rs itemss last →
     rs ≠ [] →
     (length rs ≤ recursion_depth)%nat →
     let s' := after_events s (fetches url request_headers rs) in
     failures (clock s') (ticks s') fs ds →
     length fs = MAX_NB_RETRIES →
     run_request (rs ++ fs ++ net) url request_headers true s =
       (Ok (JList (concat itemss)), net,
        emit (LogError last (list_to_set (status_code <$> fs)))
          (after_retries s' last request_headers ds))).
Proof.
  split.
  - intros. by apply run_request_exhausted.
  - intros rs itemss last fs ds net url hdrs s Hl Hne Hdepth s' Hf Hlen.
    rewrite (run_request_linked url rs itemss last) by done.
    rewrite (run_request_loop_gives_up fs ds) by done.
    reflexivity.
Qed.

(** C9, as amended. For every 200 response to a request made with the
    paginated flag set whose body is not a list: when the response carries
    a "next" link, the fetcher fails an assertion, before any further
    request; when it carries none, the body is returned as it is. *)
Theorem non_list_body_asserted_with_next r body net url request_headers s :
  status_code r = 200 →
  json r = Some body →
  (∀ items, body ≠ JList items) →
  (∀ u, links r !! "next" = Some u →
        run_request (r :: net) url request_headers true s =
          (Raise AssertionError, net, emit (Get url request_headers) s)) ∧
  (links r !! "next" = None →
   run_request (r :: net) url request_headers true s =
     (Ok body, net, emit (Get url request_headers) s)).
Proof.
  intros Hst Hjson Hbody. split.
  - intros u Hnext. unfold run_request.
    rewrite run_request_loop_200 by (done || unfold MAX_NB_RETRIES; lia).
    by apply (process_not_list _ _ body u).
  - intros Hnext. unfold run_request.
    rewrite run_request_loop_200 by (done || unfold MAX_NB_RETRIES; lia).
    by apply process_unlinked.
Qed.

(** C10. [_sleep_duration] returns a duration exactly when the failed
    response carries the three rate-limit headers with values [int]
    accepts (and a reset time [localtime] accepts, when the quota is below
    the floor); when a header is missing or is not an integer string it
    raises ([KeyError] or [ValueError]), and so does [run_request] on a
    failed response, after that one request, with no sleep and no
    retry. *)
Theorem retry_needs_rate_limit_headers :
  (∀ r s, (∃ d, (_sleep_duration r s).1 = Ok d) ↔
          rate_limit_headers r ∧ reset_readable r) ∧
  (∀ r s, ¬ rate_limit_headers r →
     ∃ e, (e = KeyError ∨ e = ValueError) ∧ _sleep_duration r s = (Raise e, s)) ∧
  (∀ r net url request_headers is_paginated s,
     status_code r ≠ 200 →
     status_code r ≠ 204 →
     ¬ rate_limit_headers r →
     ∃ e, (e = KeyError ∨ e = ValueError) ∧
       run_request (r :: net) url request_headers is_paginated s =
         (Raise e, net, emit (Get url request_headers) s)).
Proof.
  split; [|split].
  - intros r s. split.
    + intros [d Hd].
      destruct (header_int r HEADER_RATELIMIT_LIMIT) as [lim|] eqn:Hlim;
        [|unfold _sleep_duration in Hd; by rewrite Hlim in Hd].
      destruct (header_int r HEADER_RATELIMIT_REMAINING) as [rem|] eqn:Hrem;
        [|unfold _sleep_duration in Hd; by rewrite Hlim, Hrem in Hd].
      destruct (header_int r HEADER_RATELIMIT_RESET) as [rst|] eqn:Hrst;
        [|unfold _sleep_duration in Hd; by rewrite Hlim, Hrem, Hrst in Hd].
      split; [repeat split; apply integer_header_Ok; eauto|].
      intros rem' rst' Hrem' Hrst' Hcmp.
      rewrite Hrem in Hrem'. rewrite Hrst in Hrst'.
      injection Hrem' as <-. injection Hrst' as <-.
      rewrite (sleep_duration_Ok r s lim rem rst) in Hd by done. simpl in Hd.
      destruct (Z.ltb_spec rem MIN_RATE_LIMIT_REMAINING); [|lia].
      by destruct (localtime_error rst).
    + intros [(Hlim & Hrem & Hrst) Hlocal].
      apply integer_header_Ok in Hlim as [lim Hlim].
      apply integer_header_Ok in Hrem as [rem Hrem].
      apply integer_header_Ok in Hrst as [rst Hrst].
      rewrite (sleep_duration_Ok r s lim rem rst) by done. simpl.
      destruct (Z.ltb_spec rem MIN_RATE_LIMIT_REMAINING) as [Hcmp|_]; [|eauto].
      rewrite (Hlocal rem rst) by done. eauto.
  - intros r s. apply sleep_duration_error.
  - intros r net url hdrs pag s H200 H204 Hno.
    destruct (sleep_duration_error r (emit (Get url hdrs) s) Hno) as (e & He & Heq).
    exists e. split; [done|]. unfold run_request.
    rewrite run_request_loop_failed by (done || unfold MAX_NB_RETRIES; lia).
    by rewrite Heq.
Qed.

End Fetcher_properties.

(** ** The summary row and the ledger *)

Section Ledger_properties.
Context `{!Builtins, !Platform, !Csv}.

Lemma sum_from_ints acc (l : list Z) :
  sum_from acc (JInt <$> l) = Ok (acc + total l).
Proof.
  revert acc. induction l as [|z l IH]; intros acc; simpl.
  - f_equal. lia.
  - rewrite IH. f_equal. lia.
Qed.

Lemma last_n_fmap {A B : Type} (f : A → B) n (l : list A) :
  last_n n (f <$> l) = f <$> last_n n l.
Proof. unfold last_n. by rewrite length_fmap, fmap_drop. Qed.

Lemma last_n_entries n weekly recent :
  last_entries n weekly recent → last_n n weekly = recent.
Proof.
  intros (older & -> & [Hlen|[-> Hlen]]); unfold last_n.
  - rewrite length_app, Hlen.
    replace (length older + n - n)%nat with (length older) by lia.
    apply drop_app_length.
  - simpl. by replace (length recent - n)%nat with 0%nat by lia.
Qed.

Lemma commit_count_absent weeks : commit_count JNull weeks = Ok 0.
Proof. reflexivity. Qed.

Lemma commit_count_weekly kvs weekly weeks :
  dict_lookup "all" kvs = Some (JList (JInt <$> weekly)) →
  commit_count (JDict kvs) weeks = Ok (total (last_n weeks weekly)).
Proof.
  intros Hall. unfold commit_count.
  destruct kvs as [|kv kvs]; [done|]. simpl truthy. cbv iota.
  unfold getitem. rewrite Hall. simpl.
  unfold py_sum. simpl. by rewrite last_n_fmap, sum_from_ints.
Qed.

Lemma build_repo_row_counts repo cs stats stats' teams row c3 c52 :
  build_repo_row repo cs stats teams = Ok row →
  commit_count stats' 3 = Ok c3 →
  commit_count stats' 52 = Ok c52 →
  build_repo_row repo cs stats' teams = Ok (with_counts row c3 c52).
Proof.
  unfold build_repo_row. intros Hrow H3 H52.
  rewrite H3, H52.
  destruct (py_iter cs) as [contributors|]; [|done]. simpl in *.
  destruct (login_set contributors) as [logins|]; [|done]. simpl in *.
  destruct (getitem repo "name") as [name|]; [|done]. simpl in *.
  destruct (getitem repo "id") as [id|]; [|done]. simpl in *.
  destruct (getitem repo "size") as [size|]; [|done]. simpl in *.
  destruct (commit_count stats 3) as [l3|]; [|done]. simpl in *.
  destruct (commit_count stats 52) as [l52|]; [|done]. simpl in *.
  destruct (sorted_join logins) as [handles|]; [|done]. simpl in *.
  destruct (sorted_join _) as [slugs|]; [|done]. simpl in *.
  by injection Hrow as <-.
Qed.

Lemma build_repo_row_id repo cs stats teams row :
  build_repo_row repo cs stats teams = Ok row →
  getitem repo "id" = Ok (repo_id row).
Proof.
  unfold build_repo_row. intros Hrow.
  destruct (py_iter cs) as [contributors|]; [|done]. simpl in *.
  destruct (login_set contributors) as [logins|]; [|done]. simpl in *.
  destruct (getitem repo "name") as [name|]; [|done]. simpl in *.
  destruct (getitem repo "id") as [id|]; [|done]. simpl in *.
  destruct (getitem repo "size") as [size|]; [|done]. simpl in *.
  destruct (commit_count stats 3) as [l3|]; [|done]. simpl in *.
  destruct (commit_count stats 52) as [l52|]; [|done]. simpl in *.
  destruct (sorted_join logins) as [handles|]; [|done]. simpl in *.
  destruct (sorted_join _) as [slugs|]; [|done]. simpl in *.
  by injection Hrow as <-.
Qed.

(** *** Reading the id column *)

Lemma foldl_restval_lookup (l : list string) (d : gmap string (option string)) k :
  foldl (fun d k' => <[k' := None]> d) d l !! k =
    if decide (k ∈ l) then Some None else d !! k.
Proof.
  revert d. induction l as [|k' l IH]; intros d.
  - simpl. destruct (decide (k ∈ [])) as [Hin|_]; [|done].
    by apply elem_of_nil in Hin.
  - cbn [foldl]. rewrite IH.
    destruct (decide (k ∈ l)) as [Hin|Hin];
      destruct (decide (k ∈ k' :: l)) as [Hin'|Hin']; try done.
    + destruct Hin'. by apply elem_of_cons; right.
    + apply elem_of_cons in Hin' as [->|?]; [|done].
      by rewrite lookup_insert_eq.
    + apply lookup_insert_ne. intros ->. apply Hin'. by apply elem_of_cons; left.
Qed.

Lemma foldl_zip_lookup_notin (l : list (string * string))
    (d : gmap string (option string)) k :
  k ∉ l.*1 →
  foldl (fun d '(k', v) => <[k' := Some v]> d) d l !! k = d !! k.
Proof.
  revert d. induction l as [|[k' v] l IH]; intros d Hnot; simpl; [done|].
  rewrite fmap_cons in Hnot. apply not_elem_of_cons in Hnot as [Hne Hnot].
  rewrite IH by done. by apply lookup_insert_ne.
Qed.

Lemma foldl_zip_lookup (l : list (string * string))
    (d : gmap string (option string)) k c i :
  l !! i = Some (k, c) →
  (∀ j kv, l !! j = Some kv → kv.1 = k → j = i) →
  foldl (fun d '(k', v) => <[k' := Some v]> d) d l !! k = Some (Some c).
Proof.
  revert d i. induction l as [|[k' v] l IH]; intros d i Hi Huniq; [done|].
  simpl. destruct i as [|i]; simpl in Hi.
  - injection Hi as -> ->.
    rewrite foldl_zip_lookup_notin; [apply lookup_insert_eq|].
    intros Hin. apply list_elem_of_lookup in Hin as [j Hj].
    rewrite list_lookup_fmap in Hj.
    destruct (l !! j) as [kv|] eqn:Hkv; [|done]. injection Hj as Hj.
    by specialize (Huniq (S j) kv Hkv Hj).
  - apply (IH _ i); [done|].
    intros j kv Hj Hk. by specialize (Huniq (S j) kv Hj Hk) as [= ->].
Qed.

Lemma dict_reader_row_id fieldnames row k i :
  fieldnames !! i = Some k →
  (∀ j, fieldnames !! j = Some k → j = i) →
  dict_reader_row fieldnames row !! k = Some (row !! i).
Proof.
  intros Hi Huniq. unfold dict_reader_row.
  rewrite foldl_restval_lookup.
  destruct (row !! i) as [c|] eqn:Hc.
  - rewrite decide_False.
    + apply (foldl_zip_lookup _ _ _ _ i).
      * rewrite lookup_zip_with, Hi. simpl. by rewrite Hc.
      * intros j [k' v] Hj Hk. simpl in Hk. subst k'.
        rewrite lookup_zip_with in Hj.
        destruct (fieldnames !! j) as [k'|] eqn:Hfj; [|done]. simpl in Hj.
        destruct (row !! j); [|done]. injection Hj as -> _. by apply Huniq.
    + intros Hin. apply list_elem_of_lookup in Hin as [j Hj].
      rewrite lookup_drop in Hj. apply Huniq in Hj.
      apply lookup_lt_Some in Hc. lia.
  - rewrite decide_True; [done|].
    apply list_elem_of_lookup. exists (i - length row)%nat.
    rewrite lookup_drop. apply lookup_ge_None in Hc.
    by replace (length row + (i - length row))%nat with i by lia.
Qed.

(** Reading one more record, when the id column is column [i]. *)
Lemma repo_ids_of_cons fieldnames i row records ended :
  fieldnames !! i = Some "repo_id" →
  (∀ j, fieldnames !! j = Some "repo_id" → j = i) →
  repo_ids_of fieldnames (row :: records) ended =
    match id_cell i row with
    | None => repo_ids_of fieldnames records ended
    | Some cell =>
        match py_int cell with
        | None => Raise ValueError
        | Some z => ids ← repo_ids_of fieldnames records ended; Ok ({[z]} ∪ ids)
        end
    end.
Proof.
  intros Hi Huniq. unfold id_cell. destruct row as [|c row]; [done|].
  cbn [repo_ids_of]. rewrite (dict_reader_row_id _ _ _ i) by done.
  destruct ((c :: row) !! i) as [cell|]; [|done].
  by destruct (String.eqb cell "").
Qed.

Lemma repo_ids_of_column fieldnames i records zs :
  fieldnames !! i = Some "repo_id" →
  (∀ j, fieldnames !! j = Some "repo_id" → j = i) →
  column_ids i records = Some zs →
  repo_ids_of fieldnames records None = Ok (list_to_set zs).
Proof.
  intros Hi Huniq. unfold column_ids.
  revert zs. induction records as [|row records IH]; intros zs Hzs.
  - simpl in Hzs. by injection Hzs as <-.
  - rewrite (repo_ids_of_cons _ i) by done.
    simpl in Hzs. destruct (id_cell i row) as [cell|] eqn:Hcell.
    + apply mapM_Some in Hzs.
      apply Forall2_cons_inv_l in Hzs as (z & zs' & Hz & Hzs' & ->).
      apply mapM_Some in Hzs'.
      rewrite Hz, (IH zs') by done. reflexivity.
    + by apply IH.
Qed.

(** The ids of a file whose records the reader yields to the end. *)
Lemma get_repo_ids_from_csv_column path files text fieldnames records i zs :
  files !! path = Some text →
  csv_reader text = (fieldnames :: records, None) →
  fieldnames !! i = Some "repo_id" →
  (∀ j, fieldnames !! j = Some "repo_id" → j = i) →
  column_ids i records = Some zs →
  get_repo_ids_from_csv path files = Ok (Some (list_to_set zs)).
Proof.
  intros Hfile Hread Hi Huniq Hzs.
  unfold get_repo_ids_from_csv. rewrite Hfile, Hread.
  by rewrite (repo_ids_of_column _ i _ zs).
Qed.

(** *** The claims on the ledger *)

(** C6. When a file exists at the path, [start_repo_csv] returns [False]
    and leaves the file system as it is; called twice on a fresh path, it
    creates the file with the header row the first time and returns
    [False] the second time, the file written first being unchanged. *)
Theorem start_repo_csv_never_overwrites :
  (∀ path files text,
     files !! path = Some text →
     start_repo_csv path files = (false, files)) ∧
  (∀ path files,
     files !! path = None →
     let first := start_repo_csv path files in
     let second := start_repo_csv path first.2 in
     first = (true, <[path := csv_writerow field_names]> files) ∧
     second = (false, first.2) ∧
     second.2 !! path = Some (csv_writerow field_names)).
Proof.
  split.
  - intros path files text Hfile. unfold start_repo_csv. by rewrite Hfile.
  - intros path files Hfresh. unfold start_repo_csv. rewrite Hfresh. simpl.
    rewrite lookup_insert_eq. simpl. by rewrite lookup_insert_eq.
Qed.

(** C7. [get_repo_ids_from_csv] returns [None] exactly when no file
    exists at the path; for a file that exists, and that the csv reader
    reads to its end, it returns the set of the ids parsed as integers
    from the cells of the id column, and so the empty set, which is not
    [None], for a file with no data row. *)
Theorem get_repo_ids_from_csv_found :
  (∀ path files,
     get_repo_ids_from_csv path files = Ok None ↔ files !! path = None) ∧
  (∀ path files text fieldnames records i zs,
     files !! path = Some text →
     csv_reader text = (fieldnames :: records, None) →
     fieldnames !! i = Some "repo_id" →
     (∀ j, fieldnames !! j = Some "repo_id" → j = i) →
     column_ids i records = Some zs →
     get_repo_ids_from_csv path files = Ok (Some (list_to_set zs))) ∧
  (∀ path files text records,
     files !! path = Some text →
     csv_reader text = (records, None) →
     (length records ≤ 1)%nat →
     get_repo_ids_from_csv path files = Ok (Some ∅) ∧
     get_repo_ids_from_csv path files ≠ Ok None).
Proof.
  split; [|split].
  - intros path files. unfold get_repo_ids_from_csv. split.
    + destruct (files !! path) as [text|]; [|done].
      destruct (csv_reader text) as [[|fieldnames records] [e|]]; try done;
        by destruct (repo_ids_of fieldnames records _).
    + by intros ->.
  - apply get_repo_ids_from_csv_column.
  - intros path files text records Hfile Hread Hlen.
    unfold get_repo_ids_from_csv. rewrite Hfile, Hread.
    destruct records as [|fieldnames [|row records]]; [done|done|].
    simpl in Hlen. lia.
Qed.

End Ledger_properties.

(** ** The job *)

Section Job_properties.
Context `{!Builtins, !Platform, !Csv}.

Local Open Scope list_scope.

Lemma string_app_nil_r (s : string) : s +:+ "" = s.
Proof.
  induction s as [|c s IH]; [done|].
  change (String c (s +:+ "") = String c s). by rewrite IH.
Qed.

Lemma string_app_assoc (s1 s2 s3 : string) : (s1 +:+ s2) +:+ s3 = s1 +:+ (s2 +:+ s3).
Proof.
  induction s1 as [|c s1 IH]; [done|].
  change (String c ((s1 +:+ s2) +:+ s3) = String c (s1 +:+ (s2 +:+ s3))).
  by rewrite IH.
Qed.

Lemma request_fs {A : Type} (f : list Response → IO → Outcome A) w :
  fs (request f w).2 = fs w.
Proof. unfold request. by destruct (f (net w) (io w)) as [[r net'] io']. Qed.

(** One turn of the loop over the repositories. *)
Lemma repo_loop_cons repo rest previous request_headers teams path w :
  repo_loop (repo :: rest) previous request_headers teams path w =
    match getitem repo "id" with
    | Raise e => (Raise e, w)
    | Ok id =>
        match hashable id with
        | Raise e => (Raise e, w)
        | Ok k =>
            if in_ids k previous then
              repo_loop rest previous request_headers teams path w
            else
              match getitem repo "full_name" with
              | Raise e => (Raise e, w)
              | Ok full_name =>
                  match request (fun net =>
                          get_contributors net full_name request_headers) w with
                  | (Raise e, w1) => (Raise e, w1)
                  | (Ok contributors, w1) =>
                      match request (fun net =>
                              get_participation_stats net full_name request_headers) w1 with
                      | (Raise e, w2) => (Raise e, w2)
                      | (Ok repo_stats, w2) =>
                          match build_repo_row repo (or_empty_list contributors)
                                  repo_stats teams with
                          | Raise e => (Raise e, w2)
                          | Ok repo_row =>
                              repo_loop rest previous request_headers teams path
                                {| net := net w2; io := io w2;
                                   fs := write_repo_row path repo_row (fs w2) |}
                          end
                      end
                  end
              end
        end
    end.
Proof.
  cbn [repo_loop]. unfold mbind, Job_bind, pure, on_files.
  destruct (getitem repo "id") as [id|]; [|done].
  destruct (hashable id) as [k|]; [|done].
  destruct (in_ids k previous); [done|].
  destruct (getitem repo "full_name") as [full_name|]; [|done].
  destruct (request _ w) as [[contributors|] w1]; [|done].
  destruct (request _ w1) as [[repo_stats|] w2]; [|done].
  by destruct (build_repo_row _ _ _ _).
Qed.

(** A repository whose id is recorded is skipped. *)
Lemma repo_loop_skip repo rest z previous request_headers teams path w :
  getitem repo "id" = Ok (JInt z) →
  z ∈ previous →
  repo_loop (repo :: rest) previous request_headers teams path w =
    repo_loop rest previous request_headers teams path w.
Proof.
  intros Hid Hin. rewrite repo_loop_cons, Hid. simpl.
  by rewrite bool_decide_eq_true_2.
Qed.

(** A repository whose id is not recorded is fetched, and its row is
    written at the end of the file. *)
Lemma repo_loop_new repo rest z previous request_headers teams path w :
  getitem repo "id" = Ok (JInt z) →
  z ∉ previous →
  repo_loop (repo :: rest) previous request_headers teams path w =
    match getitem repo "full_name" with
    | Raise e => (Raise e, w)
    | Ok full_name =>
        match get_contributors (net w) full_name request_headers (io w) with
        | (Raise e, net1, s1) => (Raise e, {| net := net1; io := s1; fs := fs w |})
        | (Ok contributors, net1, s1) =>
            match get_participation_stats net1 full_name request_headers s1 with
            | (Raise e, net2, s2) => (Raise e, {| net := net2; io := s2; fs := fs w |})
            | (Ok repo_stats, net2, s2) =>
                match build_repo_row repo (or_empty_list contributors) repo_stats teams with
                | Raise e => (Raise e, {| net := net2; io := s2; fs := fs w |})
                | Ok repo_row =>
                    repo_loop rest previous request_headers teams path
                      {| net := net2; io := s2;
                         fs := <[path := default "" (fs w !! path)
                                           +:+ csv_writerow (row_cells repo_row)]> (fs w) |}
                end
            end
        end
    end.
Proof.
  intros Hid Hnew. rewrite repo_loop_cons, Hid. simpl.
  rewrite bool_decide_eq_false_2 by done.
  destruct (getitem repo "full_name") as [full_name|]; [|done].
  unfold request at 1.
  destruct (get_contributors _ _ _ _) as [[[contributors|] net1] s1]; [|done].
  unfold request. simpl.
  destruct (get_participation_stats _ _ _ _) as [[[repo_stats|] net2] s2]; [|done].
  simpl. by destruct (build_repo_row _ _ _ _).
Qed.

Lemma unrecorded_skip recorded repo repos z ids :
  z ∈ recorded →
  unrecorded recorded (repo :: repos) (z :: ids) = unrecorded recorded repos ids.
Proof. intros Hin. unfold unrecorded. simpl. by rewrite filter_cons_False by naive_solver. Qed.

Lemma unrecorded_new recorded repo repos z ids :
  z ∉ recorded →
  unrecorded recorded (repo :: repos) (z :: ids) =
    repo :: unrecorded recorded repos ids.
Proof. intros Hin. unfold unrecorded. simpl. by rewrite filter_cons_True. Qed.

Lemma unrecorded_ids recorded repos ids :
  Forall2 (fun repo z => getitem repo "id" = Ok (JInt z)) repos ids →
  Forall2 (fun repo z => getitem repo "id" = Ok (JInt z))
    (unrecorded recorded repos ids) (filter (fun z => z ∉ recorded) ids).
Proof.
  induction 1 as [|repo z repos ids Hid _ IH]; [constructor|].
  destruct (decide (z ∈ recorded)) as [Hin|Hin].
  - rewrite unrecorded_skip, filter_cons_False by naive_solver. done.
  - rewrite unrecorded_new, filter_cons_True by done. by constructor.
Qed.

(** The rows fetched are those of the repositories, in order. *)
Lemma fetched_rows_ids request_headers teams repos net s rows res net' s' :
  fetched_rows request_headers teams repos net s rows res net' s' →
  ∀ zs,
    Forall2 (fun repo z => getitem repo "id" = Ok (JInt z)) repos zs →
    (repo_id <$> rows) `prefix_of` (JInt <$> zs) ∧
    (res = Ok () → repo_id <$> rows = JInt <$> zs).
Proof.
  induction 1 as [net s
                 |repo repos net s full_name cs net1 s1 stats net2 s2 row rows
                    res net' s' _ _ _ Hrow _ IH
                 | | | |]; intros zs Hzs;
    try (split; [apply prefix_nil|done]).
  - apply Forall2_nil_inv_l in Hzs as ->. by split.
  - apply Forall2_cons_inv_l in Hzs as (z & zs' & Hz & Hzs' & ->).
    destruct (IH zs' Hzs') as [Hpre Hall].
    apply build_repo_row_id in Hrow. rewrite Hz in Hrow. injection Hrow as Hrow.
    rewrite !fmap_cons, <- Hrow. split.
    + by apply prefix_cons.
    + intros Hok. f_equal. by apply Hall.
Qed.

(** There are such rows, a result and a state left for every list of
    repositories, responses and state. *)
Lemma fetched_rows_total request_headers teams repos :
  ∀ net s, ∃ rows res net' s',
    fetched_rows request_headers teams repos net s rows res net' s'.
Proof.
  induction repos as [|repo repos IH]; intros net s.
  - exists [], (Ok ()), net, s. constructor.
  - destruct (getitem repo "full_name") as [full_name|e] eqn:Hname.
    2:{ exists [], (Raise e), net, s. by apply fetched_no_name. }
    destruct (get_contributors net full_name request_headers s)
      as [[[cs|e] net1] s1] eqn:Hcs.
    2:{ exists [], (Raise e), net1, s1.
        by apply (fetched_no_contributors _ _ _ _ _ _ full_name). }
    destruct (get_participation_stats net1 full_name request_headers s1)
      as [[[stats|e] net2] s2] eqn:Hstats.
    2:{ exists [], (Raise e), net2, s2.
        by apply (fetched_no_stats _ _ _ _ _ _ full_name cs net1 s1). }
    destruct (build_repo_row repo (or_empty_list cs) stats teams) as [row|e] eqn:Hrow.
    2:{ exists [], (Raise e), net2, s2.
        by apply (fetched_no_row _ _ _ _ _ _ full_name cs net1 s1 stats). }
    destruct (IH net2 s2) as (rows & res & net' & s' & Hrest).
    exists (row :: rows), res, net', s'.
    by apply (fetched_row _ _ _ _ _ _ full_name cs net1 s1 stats net2 s2).
Qed.

(** The loop, on repositories with integer ids: it fetches and builds
    the rows of those whose id is not recorded, and the file ends with
    their lines. *)
Lemma repo_loop_fetched request_headers teams path recorded repos ids :
  Forall2 (fun repo z => getitem repo "id" = Ok (JInt z)) repos ids →
  ∀ w text rows res net' s',
    fs w !! path = Some text →
    fetched_rows request_headers teams (unrecorded recorded repos ids)
      (net w) (io w) rows res net' s' →
    repo_loop repos (list_to_set recorded) request_headers teams path w =
      (res, {| net := net'; io := s';
               fs := <[path := text +:+ lines_of rows]> (fs w) |}).
Proof.
  induction 1 as [|repo z repos ids Hid _ IH];
    intros w text rows res net' s' Hfile Hfetched.
  - inversion_clear Hfetched. simpl.
    rewrite string_app_nil_r, insert_id by done. by destruct w.
  - destruct (decide (z ∈ recorded)) as [Hin|Hin].
    + rewrite unrecorded_skip in Hfetched by done.
      rewrite (repo_loop_skip repo repos z) by (done || by apply elem_of_list_to_set).
      by apply IH.
    + rewrite unrecorded_new in Hfetched by done.
      rewrite (repo_loop_new repo repos z)
        by (done || by rewrite elem_of_list_to_set).
      assert (<[path := text +:+ ""]> (fs w) = fs w) as Hsame
        by (by rewrite string_app_nil_r, insert_id).
      inversion Hfetched as
        [|? ? ? ? full_name cs net1 s1 stats net2 s2 row rows' ? ? ?
            Hname Hcs Hstats Hrow Hrest
         |? ? ? ? e Hname
         |? ? ? ? full_name e net1 s1 Hname Hcs
         |? ? ? ? full_name cs net1 s1 e net2 s2 Hname Hcs Hstats
         |? ? ? ? full_name cs net1 s1 stats net2 s2 e Hname Hcs Hstats Hrow];
        subst; simpl lines_of.
      * rewrite Hname, Hcs, Hstats, Hrow, Hfile. simpl.
        rewrite (IH _ (text +:+ csv_writerow (row_cells row)) rows' res net' s');
          [|apply lookup_insert_eq|done].
        simpl. by rewrite insert_insert_eq, string_app_assoc.
      * rewrite Hname, Hsame. by destruct w.
      * by rewrite Hname, Hcs, Hsame.
      * by rewrite Hname, Hcs, Hstats, Hsame.
      * by rewrite Hname, Hcs, Hstats, Hrow, Hsame.
Qed.

(** *** The team mapping *)









(** *** The claims on the rows written *)


(** C8. A row that can be built with some statistics is built with
    absent ones ([None], as a 204 gives) too, with 3-week and 52-week
    counts 0; with statistics whose weekly sequence is a list of integers
    the counts are the sums of its last 3 and of its last 52 entries (of
    all of them when there are fewer).  A 204 answer to the statistics
    request is [None]: the loop then writes the line of the row with
    counts 0 at the end of the file and goes on. *)
Theorem absent_stats_count_zero :
  (∀ repo contributors stats teams row,
     build_repo_row repo contributors stats teams = Ok row →
     build_repo_row repo contributors JNull teams = Ok (with_counts row 0 0)) ∧
  (∀ repo contributors stats teams row kvs weekly recent_3 recent_52,
     build_repo_row repo contributors stats teams = Ok row →
     dict_lookup "all" kvs = Some (JList (JInt <$> weekly)) →
     last_entries 3 weekly recent_3 →
     last_entries 52 weekly recent_52 →
     build_repo_row repo contributors (JDict kvs) teams =
       Ok (with_counts row (total recent_3) (total recent_52))) ∧
  (∀ repo rest z previous request_headers teams path w text
     full_name contributors w1 r net2 row,
     getitem repo "id" = Ok (JInt z) →
     z ∉ previous →
     fs w !! path = Some text →
     getitem repo "full_name" = Ok full_name →
     request (fun net => get_contributors net full_name request_headers) w
       = (Ok contributors, w1) →
     net w1 = r :: net2 →
     status_code r = 204 →
     build_repo_row repo (or_empty_list contributors) JNull teams = Ok row →
     last_3_weeks_commit_count row = 0 ∧
     last_52_weeks_commit_count row = 0 ∧
     repo_loop (repo :: rest) previous request_headers teams path w =
       repo_loop rest previous request_headers teams path
         {| net := net2;
            io := emit (Get (API_HOST +:+ "/repos/" +:+ py_str full_name
                               +:+ "/stats/participation") request_headers)
                    (io w1);
            fs := <[path := text +:+ csv_writerow (row_cells row)]> (fs w) |}).
Proof.
  split; [|split].
  - intros repo cs stats teams row Hrow.
    by apply (build_repo_row_counts repo cs stats JNull).
  - intros repo cs stats teams row kvs weekly recent_3 recent_52 Hrow Hall H3 H52.
    apply (build_repo_row_counts repo cs stats (JDict kvs)); [done| |];
      rewrite (commit_count_weekly kvs weekly) by done; f_equal; f_equal;
      by apply last_n_entries.
  - intros repo rest z previous hdrs teams path w text full_name cs w1 r net2 row
      Hid Hnew Hfile Hname Hcs Hnet H204 Hrow.
    pose proof (build_repo_row_counts _ _ _ JNull _ _ 0 0 Hrow eq_refl eq_refl)
      as Hzero.
    rewrite Hrow in Hzero. injection Hzero as Hzero.
    repeat split; [by rewrite Hzero..|].
    rewrite (repo_loop_new repo rest z) by done. rewrite Hname.
    unfold request in Hcs.
    destruct (get_contributors _ _ _ _) as [[res1 net1] s1].
    injection Hcs as -> <-. simpl in Hnet. subst net1.
    unfold get_participation_stats, run_request.
    rewrite run_request_loop_204 by (done || unfold MAX_NB_RETRIES; lia).
    by rewrite Hrow, Hfile.
Qed.

End Job_properties.

(** ** Further properties of the fetcher *)

Section More_fetcher_properties.
Context `{!Builtins, !Platform, !Csv}.

Lemma sleep_duration_frame r s :
  trace (_sleep_duration r s).2 = trace s ∧ clock (_sleep_duration r s).2 = clock s.
Proof.
  unfold _sleep_duration.
  destruct (header_int r HEADER_RATELIMIT_LIMIT); simpl; [|done].
  destruct (header_int r HEADER_RATELIMIT_REMAINING); simpl; [|done].
  destruct (header_int r HEADER_RATELIMIT_RESET) as [rst|]; simpl; [|done].
  destruct (_ <? _); [|done]. by destruct (localtime_error rst).
Qed.

Lemma accounted_stop request_headers r net s s' (res : Result JValue) ev :
  trace s' = (trace s ++ [ev])%list →
  clock s' = clock s →
  ev = Get (match ev with Get u _ => u | _ => "" end) request_headers →
  accounted request_headers (r :: net) s (res, net, s').
Proof.
  intros Htrace Hclock Hev. exists [r], [ev]. simpl. repeat split; try done.
  - constructor; [|done]. rewrite Hev. done.
  - left. rewrite Hev. done.
Qed.

Lemma accounted_step request_headers r net s s0 ev out :
  trace s0 = (trace s ++ ev)%list →
  clock s0 = clock s →
  Forall (sent_with request_headers) ev →
  attempts ev = 1%nat →
  accounted request_headers net s0 out →
  accounted request_headers (r :: net) s out.
Proof.
  intros Htrace Hclock Hsent Hone (used & evs & Hnet & Htr & Hclk & Hall & Hcount).
  exists (r :: used), (ev ++ evs)%list. repeat split.
  - simpl. by rewrite <- Hnet.
  - by rewrite Htr, Htrace, <- app_assoc.
  - by rewrite Hclk.
  - by apply Forall_app.
  - rewrite attempts_app, Hone. simpl.
    destruct Hcount as [->|(? & ? & ->)]; [by left|by right].
Qed.

Lemma accounted_result request_headers net s (res res' : Result JValue) net' s' :
  accounted request_headers net s (res, net', s') →
  (res = Raise ConnectionError → res' = Raise ConnectionError) →
  accounted request_headers net s (res', net', s').
Proof.
  intros (used & evs & Hnet & Htr & Hclk & Hall & Hcount) Hres.
  exists used, evs. repeat split; try done.
  destruct Hcount as [?|(? & ? & ?)]; [by left|right]. simpl in *. auto.
Qed.

Lemma run_request_loop_accounted net :
  ∀ depth url request_headers is_paginated failure_count codes s,
    accounted request_headers net s
      (run_request_loop depth net url request_headers is_paginated
         failure_count codes s).
Proof.
  induction net as [|r net IH]; intros depth url hdrs pag fc codes s.
  - destruct (Nat.lt_ge_cases fc MAX_NB_RETRIES) as [Hlt|Hge].
    + rewrite run_request_loop_empty by done.
      exists [], [Get url hdrs]. simpl. repeat split; try done.
      * by constructor.
      * by right.
    + rewrite run_request_loop_exhausted by done.
      exists [], [LogError url codes]. simpl. repeat split; try done.
      * by constructor.
      * by left.
  - destruct (Nat.lt_ge_cases fc MAX_NB_RETRIES) as [Hlt|Hge].
    2:{ rewrite run_request_loop_exhausted by done.
        exists [], [LogError url codes]. simpl. repeat split; try done.
        - by constructor.
        - by left. }
    destruct (decide (status_code r = 200)) as [H200|H200].
    { rewrite run_request_loop_200 by done.
      unfold _process_successful_result. rewrite H200. simpl.
      destruct (json r) as [body|]; [|by eapply accounted_stop].
      destruct (if pag then links r !! "next" else None) as [u|];
        [|by eapply accounted_stop].
      destruct body; try by eapply accounted_stop.
      destruct depth as [|depth]; [by eapply accounted_stop|].
      pose proof (IH depth u hdrs pag 0%nat ∅ (emit (Get url hdrs) s)) as Hnext.
      apply (accounted_step hdrs r net s _ [Get url hdrs]) in Hnext;
        [|done|done|by constructor|done].
      unfold next_request.
      destruct (run_request_loop depth net u hdrs pag 0 ∅ _) as [[[v|e] net'] s'];
        [|done].
      destruct (truthy v); [destruct v|];
        by apply (accounted_result _ _ _ _ _ _ _ Hnext). }
    destruct (decide (status_code r = 204)) as [H204|H204].
    { rewrite run_request_loop_204 by done. by eapply accounted_stop. }
    rewrite run_request_loop_failed by done.
    destruct (sleep_duration_frame r (emit (Get url hdrs) s)) as [Htr Hclk].
    destruct (_sleep_duration r _) as [[d|e] s1]; simpl in Htr, Hclk;
      [|by eapply accounted_stop].
    unfold time_sleep.
    destruct (_ || _); [by eapply accounted_stop|].
    destruct (d <? 0); [by eapply accounted_stop|].
    apply (accounted_step hdrs r net s (emit (Sleep d) s1)
             [Get url hdrs; Sleep d]); try done.
    + simpl. by rewrite Htr, <- app_assoc.
    + by repeat constructor.
Qed.

(** X1. Every call of [run_request] consumes the responses it uses from
    the front of the script and leaves the rest, only adds events to the
    trace, sends each of its requests (those for the "next" pages too)
    with the request headers it was given, and makes exactly one request
    per response it consumed. *)
Theorem run_request_accounted net url request_headers is_paginated s :
  accounted request_headers net s (run_request net url request_headers is_paginated s).
Proof. apply run_request_loop_accounted. Qed.

(** X2. A request made without the paginated flag never follows a
    "next" link: a 200 response gives its decoded body, of any shape, after
    that one request, whatever links the response carries. *)
Theorem unpaginated_request_ignores_links r body net url request_headers s :
  status_code r = 200 →
  json r = Some body →
  run_request (r :: net) url request_headers false s =
    (Ok body, net, emit (Get url request_headers) s).
Proof.
  intros Hst Hjson. unfold run_request.
  rewrite run_request_loop_200 by (done || unfold MAX_NB_RETRIES; lia).
  by apply process_unlinked.
Qed.

Lemma flaky_pages_fetch clk t rs itemss :
  flaky_pages clk t rs itemss →
  ∀ depth net url request_headers s,
    clock s = clk →
    ticks s = t →
    (length itemss ≤ S depth)%nat →
    (run_request_loop depth (rs ++ net) url request_headers true 0 ∅ s).1 =
      (Ok (JList (concat itemss)), net).
Proof.
  induction 1 as [t fs ds r items Hf Hlen Hp
                 |t fs ds r items u rs itemss Hf Hlen Hp Hrest IH];
    intros depth net url hdrs s Hclk Hticks Hdepth; subst clk t.
  - rewrite <- app_assoc. simpl app.
    rewrite (run_request_loop_failures fs ds) by (done || simpl; lia).
    rewrite run_request_loop_200 by (simpl; lia || apply Hp).
    destruct Hp as (Hst & Hjson & Hnext).
    rewrite (process_unlinked _ _ (JList items)) by done.
    simpl. by rewrite app_nil_r.
  - rewrite <- app_assoc, <- app_comm_cons.
    rewrite (run_request_loop_failures fs ds) by (done || simpl; lia).
    rewrite run_request_loop_200 by (simpl; lia || apply Hp).
    rewrite (process_page _ _ items u) by done.
    destruct depth as [|depth]; [destruct Hrest; simpl in Hdepth; lia|].
    specialize (IH depth net u hdrs
                  (emit (Get url hdrs) (after_retries s url hdrs ds)) eq_refl).
    simpl in IH. rewrite (failures_length _ _ _ _ Hf) in IH.
    specialize (IH eq_refl ltac:(simpl in Hdepth; lia)).
    unfold next_request.
    destruct (run_request_loop depth (rs ++ net) u hdrs true 0 ∅ _)
      as [[res net'] s'].
    simpl in IH. injection IH as -> ->. simpl.
    destruct (concat itemss); simpl; by rewrite ?app_nil_r.
Qed.

(** X3. Retries and pagination compose, and the count of failures starts
    again on every page: when each page of a sequence ending in a page with
    no "next" link (of no more pages than the stack has room for) is
    answered after fewer than twenty failed responses, each with the
    integer rate-limit headers and a duration [time.sleep] accepts,
    [run_request] returns the concatenation of the pages' items and
    consumes all these responses. *)
Theorem flaky_pagination_concatenates rs itemss net url request_headers s :
  flaky_pages (clock s) (ticks s) rs itemss →
  (length itemss ≤ S recursion_depth)%nat →
  (run_request (rs ++ net) url request_headers true s).1 =
    (Ok (JList (concat itemss)), net).
Proof.
  intros Hpages Hdepth. by apply (flaky_pages_fetch (clock s) (ticks s)).
Qed.

(** X4. After pages that each linked to the next (no more of them than
    the stack has room for), a last 200 response with no "next" link whose
    body is not a list fails the assertion when the body is truthy, and is
    dropped without notice when it is falsy ([None], [{}], [0], [""],
    [False]): the items of the pages before are returned. *)
Theorem non_list_last_page rs itemss last r body net url request_headers s :
  linked url rs itemss last →
  rs ≠ [] →
  (length rs ≤ recursion_depth)%nat →
  status_code r = 200 →
  json r = Some body →
  (∀ items, body ≠ JList items) →
  links r !! "next" = None →
  (run_request (rs ++ r :: net) url request_headers true s).1 =
    (if truthy body then Raise AssertionError else Ok (JList (concat itemss)), net).
Proof.
  intros Hl Hne Hdepth Hst Hjson Hbody Hnext.
  rewrite (run_request_linked url rs itemss last) by done.
  rewrite run_request_loop_200 by (done || unfold MAX_NB_RETRIES; lia).
  rewrite (process_unlinked _ _ body) by done. simpl.
  destruct (truthy body); [|done].
  destruct body; try done. by destruct (Hbody items).
Qed.

(** X5. An exception on a later page loses the pages fetched before it:
    after pages that each linked to the next (no more of them than the
    stack has room for), a failed response without the integer rate-limit
    headers makes [run_request] raise, returning no items. *)
Theorem raise_on_next_page_discards rs itemss last r net url request_headers s :
  linked url rs itemss last →
  rs ≠ [] →
  (length rs ≤ recursion_depth)%nat →
  status_code r ≠ 200 →
  status_code r ≠ 204 →
  ¬ rate_limit_headers r →
  ∃ e, (e = KeyError ∨ e = ValueError) ∧
    (run_request (rs ++ r :: net) url request_headers true s).1 = (Raise e, net).
Proof.
  intros Hl Hne Hdepth H200 H204 Hno.
  rewrite (run_request_linked url rs itemss last) by done.
  rewrite run_request_loop_failed by (done || unfold MAX_NB_RETRIES; lia).
  match goal with |- context [_sleep_duration r ?s0] =>
    destruct (sleep_duration_error r s0 Hno) as (e & He & ->)
  end.
  exists e. by split.
Qed.

(** X11. Rate-limit values out of range end the request without a
    retry.  For a failed response with the three integer headers: a quota
    below the floor with a reset time [localtime] rejects raises that
    exception; a duration beyond what [time.sleep] converts raises
    [OverflowError]; a negative duration it converts raises [ValueError].
    In each case [run_request] raises after the one request and the one
    reading of the clock, whatever responses are left. *)
Theorem out_of_range_rate_limit_raises r lim rem rst net url request_headers
    is_paginated s :
  status_code r ≠ 200 →
  status_code r ≠ 204 →
  header_int r HEADER_RATELIMIT_LIMIT = Ok lim →
  header_int r HEADER_RATELIMIT_REMAINING = Ok rem →
  header_int r HEADER_RATELIMIT_RESET = Ok rst →
  let d := if rem <? MIN_RATE_LIMIT_REMAINING
           then rst - clock s (ticks s) else RETRY_SLEEP_DEFAULT in
  let out := run_request (r :: net) url request_headers is_paginated s in
  let s' := (time_time (emit (Get url request_headers) s)).2 in
  (∀ e, rem < MIN_RATE_LIMIT_REMAINING → localtime_error rst = Some e →
        out = (Raise e, net, s')) ∧
  ((rem < MIN_RATE_LIMIT_REMAINING → localtime_error rst = None) →
   (d < - sleep_max ∨ sleep_max < d → out = (Raise OverflowError, net, s')) ∧
   (- sleep_max ≤ d ≤ sleep_max → d < 0 → out = (Raise ValueError, net, s'))).
Proof.
  intros H200 H204 Hlim Hrem Hrst d out s'. subst out s'. unfold run_request.
  rewrite run_request_loop_failed by (done || unfold MAX_NB_RETRIES; lia).
  rewrite (sleep_duration_Ok r _ lim rem rst) by done. simpl clock. simpl ticks.
  fold d. split.
  - intros e Hcmp Hlocal.
    destruct (Z.ltb_spec rem MIN_RATE_LIMIT_REMAINING); [|lia].
    by rewrite Hlocal.
  - intros Hlocal.
    assert ((if rem <? MIN_RATE_LIMIT_REMAINING
             then match localtime_error rst with
                  | Some e => Raise e
                  | None => Ok (rst - clock s (ticks s))
                  end
             else Ok RETRY_SLEEP_DEFAULT) = Ok d) as ->.
    { unfold d. destruct (Z.ltb_spec rem MIN_RATE_LIMIT_REMAINING) as [Hcmp|_]; [|done].
      by rewrite (Hlocal Hcmp). }
    unfold time_sleep. split.
    + intros Hout.
      destruct (Z.ltb_spec d (- sleep_max)); [done|].
      destruct (Z.ltb_spec sleep_max d); [done|lia].
    + intros Hin Hneg.
      destruct (Z.ltb_spec d (- sleep_max)); [lia|].
      destruct (Z.ltb_spec sleep_max d); [lia|]. simpl.
      destruct (Z.ltb_spec d 0); [done|lia].
Qed.

End More_fetcher_properties.

(** ** Further properties of the summary row *)

Section More_row_properties.
Context `{!Builtins, !Platform, !Csv}.

Local Instance leb_total : Total (fun a b : string => Is_true (String.leb a b)).
Proof.
  intros a b. destruct (String.leb_total a b) as [->| ->]; [by left|by right].
Qed.

Lemma build_repo_row_inv repo cs stats teams row :
  build_repo_row repo cs stats teams = Ok row →
  ∃ contributors logins,
    py_iter cs = Ok contributors ∧
    login_set contributors = Ok logins ∧
    getitem repo "name" = Ok (repo_name row) ∧
    getitem repo "size" = Ok (repo_size row) ∧
    commit_count stats 3 = Ok (last_3_weeks_commit_count row) ∧
    commit_count stats 52 = Ok (last_52_weeks_commit_count row) ∧
    contributor_count row = size logins ∧
    sorted_join logins = Ok (contributor_handles row) ∧
    sorted_join (teams_of logins teams) = Ok (team_names row).
Proof.
  unfold build_repo_row. intros Hrow.
  destruct (py_iter cs) as [contributors|]; [|done]. simpl in Hrow.
  destruct (login_set contributors) as [logins|] eqn:Hlogins; [|done].
  simpl in Hrow.
  destruct (getitem repo "name") as [name|]; [|done]. simpl in Hrow.
  destruct (getitem repo "id") as [id|]; [|done]. simpl in Hrow.
  destruct (getitem repo "size") as [sz|]; [|done]. simpl in Hrow.
  destruct (commit_count stats 3) as [l3|]; [|done]. simpl in Hrow.
  destruct (commit_count stats 52) as [l52|]; [|done]. simpl in Hrow.
  destruct (sorted_join logins) as [handles|] eqn:Hhandles; [|done].
  simpl in Hrow.
  destruct (sorted_join (teams_of logins teams)) as [slugs|] eqn:Hslugs; [|done].
  simpl in Hrow. injection Hrow as <-. by exists contributors, logins.
Qed.

Lemma build_repo_row_stats_error repo cs stats stats' teams row e :
  build_repo_row repo cs stats teams = Ok row →
  commit_count stats' 3 = Raise e →
  build_repo_row repo cs stats' teams = Raise e.
Proof.
  intros Hrow Herr.
  pose proof (build_repo_row_id _ _ _ _ _ Hrow) as Hid.
  apply build_repo_row_inv in Hrow
    as (contributors & logins & Hcs & Hlogins & Hname & Hsize & _).
  unfold build_repo_row. rewrite Hcs. simpl. rewrite Hlogins. simpl.
  rewrite Hname, Hid, Hsize. simpl. by rewrite Herr.
Qed.

Lemma login_set_elem contributors logins k :
  login_set contributors = Ok logins →
  k ∈ logins ↔ login_of contributors k.
Proof.
  unfold login_of. revert logins.
  induction contributors as [|c l IH]; intros logins Hset; simpl in Hset.
  - injection Hset as <-. split; [set_solver|].
    intros (c & v & Hin & _). by apply elem_of_nil in Hin.
  - destruct (getitem c "login") as [v|] eqn:Hv; [|done]. simpl in Hset.
    destruct (hashable v) as [k'|] eqn:Hk; [|done]. simpl in Hset.
    destruct (login_set l) as [logins'|]; [|done]. simpl in Hset.
    injection Hset as <-. rewrite elem_of_union, elem_of_singleton, (IH logins') by done.
    split.
    + intros [->|(c' & v' & Hin & Hv' & Hk')].
      * exists c, v. repeat split; [by apply elem_of_cons; left|done..].
      * exists c', v'. repeat split; [by apply elem_of_cons; right|done..].
    + intros (c' & v' & Hin & Hv' & Hk').
      apply elem_of_cons in Hin as [->|Hin].
      * left. congruence.
      * right. by exists c', v'.
Qed.

Lemma teams_of_elem logins mapping slug :
  slug ∈ teams_of logins mapping ↔
    ∃ members, (slug, members) ∈ mapping ∧ logins ∩ members ≠ ∅.
Proof.
  unfold teams_of.
  assert (∀ acc : gset Key,
    slug ∈ foldl (fun teams '(team_slug, team_member_logins) =>
                    if decide (logins ∩ team_member_logins ≠ ∅)
                    then teams ∪ {[team_slug]} else teams) acc mapping ↔
      slug ∈ acc ∨ ∃ members, (slug, members) ∈ mapping ∧ logins ∩ members ≠ ∅)
    as Hfold.
  { induction mapping as [|[slug' members'] mapping IH]; intros acc; simpl.
    - split; [by left|]. intros [?|(m & Hin & _)]; [done|].
      by apply elem_of_nil in Hin.
    - rewrite IH. split.
      + intros [Hacc|(m & Hin & Hm)].
        * destruct (decide (logins ∩ members' ≠ ∅)) as [Hcommon|_]; [|by left].
          apply elem_of_union in Hacc as [?|Heq]; [by left|].
          apply elem_of_singleton in Heq as ->.
          right. exists members'. split; [by apply elem_of_cons; left|done].
        * right. exists m. split; [by apply elem_of_cons; right|done].
      + intros [Hacc|(m & Hin & Hm)].
        * left. destruct (decide _); [|done]. apply elem_of_union. by left.
        * apply elem_of_cons in Hin as [[= -> ->]|Hin].
          -- left. rewrite decide_True by done.
             apply elem_of_union. right. by apply elem_of_singleton.
          -- right. by exists m. }
  rewrite Hfold. split; [|by right]. intros [Hin|?]; [|done].
  by apply elem_of_empty in Hin.
Qed.

Lemma key_strs keys strs :
  Forall2 (fun k s => key_str k = Some s) keys strs → keys = KStr <$> strs.
Proof.
  induction 1 as [|k s keys strs Hk _ IH]; [done|].
  rewrite fmap_cons. f_equal; [|done].
  destruct k; try done. simpl in Hk. congruence.
Qed.

Lemma sorted_join_spec keys joined :
  sorted_join keys = Ok joined →
  ∃ strs,
    joined = String.concat ", " strs ∧
    Sorted (fun a b => Is_true (String.leb a b)) strs ∧
    NoDup strs ∧
    length strs = size keys ∧
    ∀ str, str ∈ strs ↔ KStr str ∈ keys.
Proof.
  unfold sorted_join.
  destruct (mapM key_str (elements keys)) as [strs|] eqn:Hstrs; [|done].
  intros [= <-]. apply mapM_Some, key_strs in Hstrs.
  exists (merge_sort (fun a b => Is_true (String.leb a b)) strs).
  split; [done|]. split; [apply Sorted_merge_sort, _|].
  pose proof (merge_sort_Permutation
                (fun a b => Is_true (String.leb a b)) strs) as Hperm.
  split; [|split].
  - rewrite Hperm. apply (NoDup_fmap_1 KStr). rewrite <- Hstrs.
    apply NoDup_elements.
  - rewrite Hperm. unfold size, set_size. simpl.
    by rewrite Hstrs, length_fmap.
  - intros str. rewrite Hperm, <- elem_of_elements, Hstrs, list_elem_of_fmap.
    split.
    + intros Hin. by exists str.
    + by intros (str' & [= ->] & Hin).
Qed.

(** X6. In a row that is built, the team names are the distinct slugs,
    sorted and joined by ", ", of exactly the teams that have a member
    among the logins of the repository's contributors. *)
Theorem team_names_are_contributing_teams repo cs stats teams row contributors :
  build_repo_row repo cs stats teams = Ok row →
  py_iter cs = Ok contributors →
  ∃ slugs,
    team_names row = String.concat ", " slugs ∧
    Sorted (fun a b => Is_true (String.leb a b)) slugs ∧
    NoDup slugs ∧
    ∀ slug, slug ∈ slugs ↔
      ∃ members k,
        (KStr slug, members) ∈ teams ∧ login_of contributors k ∧ k ∈ members.
Proof.
  intros Hrow Hcs.
  apply build_repo_row_inv in Hrow
    as (contributors' & logins & Hcs' & Hlogins & _ & _ & _ & _ & _ & _ & Hteams).
  rewrite Hcs in Hcs'. injection Hcs' as <-.
  apply sorted_join_spec in Hteams as (slugs & Hjoin & Hsorted & Hnodup & _ & Hin).
  exists slugs. repeat split; [done..| |].
  - intros Hslug. apply Hin, teams_of_elem in Hslug as (members & Hteam & Hcommon).
    apply set_choose_L in Hcommon as [k Hk].
    apply elem_of_intersection in Hk as [Hk1 Hk2].
    exists members, k. repeat split; [done| |done].
    by apply (login_set_elem contributors logins).
  - intros (members & k & Hteam & Hk1 & Hk2).
    apply Hin, teams_of_elem. exists members. split; [done|].
    apply (login_set_elem contributors logins) in Hk1; [|done].
    intros Hempty. assert (k ∈ logins ∩ members) as Hk
      by (by apply elem_of_intersection).
    rewrite Hempty in Hk. by apply elem_of_empty in Hk.
Qed.

(** X7. In a row that is built, the contributor handles are the distinct
    logins of the contributors, sorted and joined by ", ", each login being
    a string, and the contributor count is their number. *)
Theorem contributor_handles_are_sorted_logins repo cs stats teams row contributors :
  build_repo_row repo cs stats teams = Ok row →
  py_iter cs = Ok contributors →
  ∃ handles,
    contributor_handles row = String.concat ", " handles ∧
    Sorted (fun a b => Is_true (String.leb a b)) handles ∧
    NoDup handles ∧
    contributor_count row = length handles ∧
    (∀ handle, handle ∈ handles ↔ login_of contributors (KStr handle)) ∧
    (∀ k, login_of contributors k → ∃ handle, k = KStr handle).
Proof.
  intros Hrow Hcs.
  apply build_repo_row_inv in Hrow
    as (contributors' & logins & Hcs' & Hlogins & _ & _ & _ & _ & Hcount & Hjoin & _).
  rewrite Hcs in Hcs'. injection Hcs' as <-.
  pose proof Hjoin as Hkeys.
  apply sorted_join_spec in Hjoin as (handles & Hjoin & Hsorted & Hnodup & Hlen & Hin).
  exists handles. repeat split; [done..|congruence| | |].
  - intros Hh. by apply (login_set_elem contributors logins), Hin.
  - intros Hh. by apply Hin, (login_set_elem contributors logins).
  - intros k Hk. apply (login_set_elem contributors logins) in Hk; [|done].
    unfold sorted_join in Hkeys.
    destruct (mapM key_str (elements logins)) as [strs|] eqn:Hstrs; [|done].
    apply mapM_Some, key_strs in Hstrs.
    apply elem_of_elements in Hk. rewrite Hstrs in Hk.
    apply list_elem_of_fmap in Hk as (handle & -> & _). by exists handle.
Qed.

Lemma total_app l1 l2 : total (l1 ++ l2) = total l1 + total l2.
Proof. unfold total. induction l1 as [|z l1 IH]; simpl; lia. Qed.

Lemma total_nonneg l : Forall (fun z => 0 ≤ z) l → 0 ≤ total l.
Proof. unfold total. induction 1; simpl; lia. Qed.

Lemma total_last_n_le n m l :
  Forall (fun z => 0 ≤ z) l →
  (n ≤ m)%nat →
  total (last_n n l) ≤ total (last_n m l).
Proof.
  intros Hpos Hnm. unfold last_n.
  rewrite <- (take_drop ((length l - n) - (length l - m))
                (drop (length l - m) l)).
  rewrite total_app, drop_drop.
  replace (length l - m + (length l - n - (length l - m)))%nat
    with (length l - n)%nat by lia.
  assert (0 ≤ total (take (length l - n - (length l - m))
                       (drop (length l - m) l))) as Hhead.
  { apply total_nonneg. by apply Forall_take, Forall_drop. }
  lia.
Qed.

Lemma last_n_all {A : Type} n (l : list A) : (length l ≤ n)%nat → last_n n l = l.
Proof. intros Hlen. unfold last_n. by replace (length l - n)%nat with 0%nat by lia. Qed.

(** X8. For statistics whose weekly counts are non-negative integers,
    the 3-week count of the row is between 0 and the 52-week count, which
    is at most the sum of all the weeks; a sequence of at most 3 weeks
    gives both counts equal to its sum. *)
Theorem recent_commits_bounded repo cs kvs teams row weekly :
  build_repo_row repo cs (JDict kvs) teams = Ok row →
  dict_lookup "all" kvs = Some (JList (JInt <$> weekly)) →
  Forall (fun z => 0 ≤ z) weekly →
  0 ≤ last_3_weeks_commit_count row ∧
  last_3_weeks_commit_count row ≤ last_52_weeks_commit_count row ∧
  last_52_weeks_commit_count row ≤ total weekly ∧
  ((length weekly ≤ 3)%nat →
   last_3_weeks_commit_count row = total weekly ∧
   last_52_weeks_commit_count row = total weekly).
Proof.
  intros Hrow Hall Hpos.
  apply build_repo_row_inv in Hrow
    as (_ & _ & _ & _ & _ & _ & H3 & H52 & _).
  rewrite (commit_count_weekly kvs weekly) in H3, H52 by done.
  injection H3 as <-. injection H52 as <-.
  repeat split.
  - apply total_nonneg. unfold last_n. by apply Forall_drop.
  - by apply total_last_n_le; [|lia].
  - etrans;
      [apply (total_last_n_le 52 (Nat.max 52 (length weekly))); [done|lia]|].
    by rewrite last_n_all by lia.
  - by rewrite last_n_all.
  - by rewrite last_n_all by lia.
Qed.

(** X9. Where a row can be built for the repository and its
    contributors, the statistics decide the outcome by their shape: any
    falsy value ([None], [{}], [[]], [0], [""], [False]) gives counts 0; a
    non-empty object without the key "all" raises [KeyError]; a truthy
    value that is not an object raises [TypeError]. *)
Theorem stats_shapes repo cs stats0 teams row :
  build_repo_row repo cs stats0 teams = Ok row →
  (∀ stats, truthy stats = false →
     build_repo_row repo cs stats teams = Ok (with_counts row 0 0)) ∧
  (∀ kvs, kvs ≠ [] → dict_lookup "all" kvs = None →
     build_repo_row repo cs (JDict kvs) teams = Raise KeyError) ∧
  (∀ stats, truthy stats = true → (∀ kvs, stats ≠ JDict kvs) →
     build_repo_row repo cs stats teams = Raise TypeError).
Proof.
  intros Hrow. split; [|split].
  - intros stats Hfalsy.
    apply (build_repo_row_counts repo cs stats0 stats); [done| |];
      unfold commit_count; by rewrite Hfalsy.
  - intros kvs Hne Hall.
    apply (build_repo_row_stats_error repo cs stats0 _ teams row); [done|].
    unfold commit_count. destruct kvs; [done|]. simpl truthy. cbv iota.
    unfold getitem. by rewrite Hall.
  - intros stats Htruthy Hshape.
    apply (build_repo_row_stats_error repo cs stats0 _ teams row); [done|].
    unfold commit_count. rewrite Htruthy.
    destruct stats; try done. by destruct (Hshape kvs).
Qed.

(** X10. Missing keys: a contributor object without "login" makes
    [build_repo_row] raise [KeyError] whatever the repository is, when the
    contributors before it have hashable logins; and with contributors
    that all have one, a repository object without "name", "id" or "size"
    raises [KeyError] whatever the statistics are. *)
Theorem missing_keys_raise :
  (∀ repo before kvs after stats teams logins,
     login_set before = Ok logins →
     dict_lookup "login" kvs = None →
     build_repo_row repo (JList (before ++ JDict kvs :: after)) stats teams =
       Raise KeyError) ∧
  (∀ kvs contributors stats teams logins key,
     login_set contributors = Ok logins →
     key ∈ ["name"; "id"; "size"] →
     dict_lookup key kvs = None →
     build_repo_row (JDict kvs) (JList contributors) stats teams = Raise KeyError).
Proof.
  split.
  - intros repo before kvs after stats teams logins Hbefore Hlogin.
    assert (login_set (before ++ JDict kvs :: after) = Raise KeyError) as Hraise.
    { revert logins Hbefore. induction before as [|c l IH]; intros logins Hset.
      - simpl. by rewrite Hlogin.
      - simpl in *. destruct (getitem c "login") as [v|]; [|done]. simpl in *.
        destruct (hashable v) as [k|]; [|done]. simpl in *.
        destruct (login_set l) as [logins'|]; [|done].
        by rewrite (IH logins'). }
    unfold build_repo_row, py_iter. unfold mbind at 1, Result_bind at 1.
    by rewrite Hraise.
  - intros kvs contributors stats teams logins key Hlogins Hkey Hmissing.
    unfold build_repo_row, py_iter. unfold mbind at 1, Result_bind at 1.
    rewrite Hlogins. unfold mbind at 1, Result_bind at 1. unfold getitem.
    repeat (apply elem_of_cons in Hkey as [->|Hkey]).
    + by rewrite Hmissing.
    + destruct (dict_lookup "name" kvs); [|done].
      unfold mbind at 1, Result_bind at 1. by rewrite Hmissing.
    + destruct (dict_lookup "name" kvs); [|done].
      unfold mbind at 1, Result_bind at 1.
      destruct (dict_lookup "id" kvs); [|done].
      unfold mbind at 1, Result_bind at 1. by rewrite Hmissing.
    + by apply elem_of_nil in Hkey.
Qed.

End More_row_properties.

(** ** Further properties of the ledger *)

Section More_ledger_properties.
Context `{!Builtins, !Platform, !Csv}.

Local Open Scope list_scope.

Lemma field_names_id_column :
  field_names !! 1%nat = Some "repo_id" ∧
  ∀ j, field_names !! j = Some "repo_id" → j = 1%nat.
Proof.
  split; [done|]. intros j Hj. by do 9 (destruct j as [|j]; try done).
Qed.

Lemma column_ids_app i records1 records2 zs1 zs2 :
  column_ids i records1 = Some zs1 →
  column_ids i records2 = Some zs2 →
  column_ids i (records1 ++ records2) = Some (zs1 ++ zs2).
Proof.
  unfold column_ids. intros Hzs1 Hzs2. apply mapM_Some in Hzs1, Hzs2.
  apply mapM_Some. rewrite omap_app. by apply Forall2_app.
Qed.

Lemma column_ids_rows rows zs :
  Forall2 (fun row z => repo_id row = JInt z ∧ reads_back z) rows zs →
  column_ids 1 (row_cells <$> rows) = Some zs.
Proof.
  unfold column_ids. intros Hrows. apply mapM_Some.
  induction Hrows as [|row z rows zs [Hid [Hint Hstr]] _ IH]; [constructor|].
  rewrite fmap_cons. cbn [omap list_omap].
  assert (id_cell 1 (row_cells row) = Some (py_str (JInt z))) as ->.
  { unfold id_cell, row_cells. simpl. rewrite Hid. simpl.
    destruct (String.eqb_spec (py_str (JInt z)) ""); [done|done]. }
  by constructor.
Qed.

Lemma dict_reader_row_missing fieldnames row k :
  k ∉ fieldnames → dict_reader_row fieldnames row !! k = None.
Proof.
  intros Hnot. unfold dict_reader_row. rewrite foldl_restval_lookup.
  rewrite decide_False.
  - rewrite foldl_zip_lookup_notin; [done|].
    intros Hin. apply list_elem_of_fmap in Hin as ([k' v] & -> & Hin).
    by apply elem_of_zip_l in Hin.
  - intros Hin. apply Hnot. by apply (subseteq_drop (length row) fieldnames).
Qed.

(** X13. Errors of [get_repo_ids_from_csv] on a file that exists: when
    the header has no "repo_id" name and some record is not blank it
    raises [KeyError]; when a cell of the id column is not empty and [int]
    rejects it, after records whose ids are read, it raises [ValueError].
    In both cases nothing is returned, [None] neither, whatever the reader
    would do after these records. *)
Theorem get_repo_ids_from_csv_errors path files fieldnames :
  (∀ text records ended,
     files !! path = Some text →
     csv_reader text = (fieldnames :: records, ended) →
     "repo_id" ∉ fieldnames →
     Exists (fun record => record ≠ []) records →
     get_repo_ids_from_csv path files = Raise KeyError) ∧
  (∀ text i good zs bad cell rest ended,
     files !! path = Some text →
     csv_reader text = (fieldnames :: good ++ bad :: rest, ended) →
     fieldnames !! i = Some "repo_id" →
     (∀ j, fieldnames !! j = Some "repo_id" → j = i) →
     column_ids i good = Some zs →
     id_cell i bad = Some cell →
     py_int cell = None →
     get_repo_ids_from_csv path files = Raise ValueError).
Proof.
  split.
  - intros text records ended Hfile Hread Hnot Hrecord.
    unfold get_repo_ids_from_csv. rewrite Hfile, Hread.
    assert (repo_ids_of fieldnames records ended = Raise KeyError) as ->; [|done].
    clear Hfile Hread.
    induction Hrecord as [[|c row] records Hrow|[|c row] records _ IH];
      [done| |exact IH|]; cbn [repo_ids_of]; by rewrite dict_reader_row_missing.
  - intros text i good zs bad cell rest ended Hfile Hread Hi Huniq Hgood Hcell Hint.
    unfold get_repo_ids_from_csv. rewrite Hfile, Hread.
    assert (repo_ids_of fieldnames (good ++ bad :: rest) ended = Raise ValueError)
      as ->; [|done].
    clear Hfile Hread. revert zs Hgood.
    induction good as [|row good IH]; intros zs Hgood.
    + rewrite app_nil_l, (repo_ids_of_cons _ i) by done. by rewrite Hcell, Hint.
    + rewrite <- app_comm_cons, (repo_ids_of_cons _ i) by done.
      unfold column_ids in Hgood. cbn [omap list_omap] in Hgood.
      destruct (id_cell i row) as [cell'|].
      * apply mapM_Some, Forall2_cons_inv_l in Hgood
          as (z & zs' & Hz & Hzs' & ->).
        apply mapM_Some in Hzs'. by rewrite Hz, (IH zs').
      * by apply (IH zs).
Qed.

End More_ledger_properties.

(** ** Further properties of the job *)

Section More_job_properties.
Context `{!Builtins, !Platform, !Csv}.

Local Open Scope list_scope.

Lemma repo_loop_all_skipped repos previous request_headers teams path w :
  Forall (fun repo => ∃ z, getitem repo "id" = Ok (JInt z) ∧ z ∈ previous) repos →
  repo_loop repos previous request_headers teams path w = (Ok (), w).
Proof.
  induction 1 as [|repo repos (z & Hid & Hin) _ IH]; [done|].
  by rewrite (repo_loop_skip repo repos z).
Qed.

(** X14. When every repository of the fetched list has an integer id
    that is in the skip-set, the loop makes no request, writes nothing and
    ends normally: the world is left as it was. *)
Theorem recorded_repositories_are_skipped repos previous request_headers teams path w :
  Forall (fun repo => ∃ z, getitem repo "id" = Ok (JInt z) ∧ z ∈ previous) repos →
  repo_loop repos previous request_headers teams path w = (Ok (), w).
Proof. apply repo_loop_all_skipped. Qed.

Lemma rows_read_back rows zs :
  repo_id <$> rows = JInt <$> zs →
  Forall reads_back zs →
  Forall2 (fun row z => repo_id row = JInt z ∧ reads_back z) rows zs.
Proof.
  revert zs. induction rows as [|row rows IH]; intros [|z zs] Hids Hback;
    try done.
  rewrite !fmap_cons in Hids. injection Hids as Hid Hids.
  apply Forall_cons in Hback as [Hz Hback].
  constructor; [done|by apply IH].
Qed.

(** X15. Re-running is idempotent, where the reader reads back what was
    written.  The loop has ended normally on a file whose id column had
    the ids [recorded], for repositories whose ids are integers that [int]
    reads back from their [str]; and the csv reader yields, for the file
    with the lines written, the header, the records the file had and the
    cells of the rows written.  Then the ids read from the file contain
    the skip-set of the run and the id of every repository of the list,
    and a second pass of the loop over the same list with the ids read
    makes no request and writes nothing. *)
Theorem rerun_appends_nothing request_headers teams path recorded repos ids w
    text records rows net' s' :
  Forall2 (fun repo z => getitem repo "id" = Ok (JInt z)) repos ids →
  Forall reads_back ids →
  fs w !! path = Some text →
  column_ids 1 records = Some recorded →
  fetched_rows request_headers teams (unrecorded recorded repos ids)
    (net w) (io w) rows (Ok ()) net' s' →
  csv_reader (text +:+ lines_of rows) =
    (field_names :: records ++ (row_cells <$> rows), None) →
  let out := repo_loop repos (list_to_set recorded) request_headers teams path w in
  out.1 = Ok () ∧
  ∃ ids',
    get_repo_ids_from_csv path (fs out.2) = Ok (Some ids') ∧
    list_to_set recorded ⊆ ids' ∧
    (∀ z, z ∈ ids → z ∈ ids') ∧
    ∀ request_headers' teams' w',
      repo_loop repos ids' request_headers' teams' path w' = (Ok (), w').
Proof.
  intros Hids Hback Hfile Hcol Hfetched Hread out. subst out.
  rewrite (repo_loop_fetched _ _ _ recorded repos ids Hids w text rows (Ok ()) net' s')
    by done.
  split; [done|]. simpl.
  destruct (fetched_rows_ids _ _ _ _ _ _ _ _ _ Hfetched
              (filter (fun z => z ∉ recorded) ids)) as [_ Hrows];
    [by apply unrecorded_ids|].
  specialize (Hrows eq_refl).
  set (written := filter (fun z => z ∉ recorded) ids) in *.
  exists (list_to_set (recorded ++ written)).
  assert (∀ z, z ∈ ids → z ∈ (list_to_set (recorded ++ written) : gset Z))
    as Hcovered.
  { intros z Hz. apply elem_of_list_to_set, elem_of_app.
    destruct (decide (z ∈ recorded)) as [?|Hnew]; [by left|right].
    by apply list_elem_of_filter. }
  split; [|split; [|split]].
  - destruct field_names_id_column as [Hi Huniq].
    apply (get_repo_ids_from_csv_column _ _ (text +:+ lines_of rows)
             field_names (records ++ (row_cells <$> rows)) 1%nat); try done.
    + apply lookup_insert_eq.
    + apply column_ids_app; [done|]. apply column_ids_rows, rows_read_back; [done|].
      apply Forall_forall. intros z Hz. apply list_elem_of_filter in Hz as [_ Hz].
      by apply (proj1 (Forall_forall _ _) Hback).
  - intros z Hz. apply elem_of_list_to_set, elem_of_app. left.
    by apply elem_of_list_to_set in Hz.
  - done.
  - intros hdrs' teams' w'. apply repo_loop_all_skipped.
    apply Forall_forall. intros repo Hrepo.
    apply list_elem_of_lookup in Hrepo as [k Hk].
    destruct (Forall2_lookup_l _ _ _ _ _ Hids Hk) as (z & Hz & Hid).
    exists z. split; [done|]. apply Hcovered. by apply list_elem_of_lookup_2 in Hz.
Qed.

(** X16. The job stops before any request when the output file does not
    fit the mode: in normal mode when a file exists at the path, in
    append-only mode when none does, [main] exits with a message and
    leaves the network, the clock, the trace and the files as they
    were. *)
Theorem main_exits_before_any_request args w :
  (append_only args = false ∧ is_Some (fs w !! filepath args)) ∨
  (append_only args = true ∧ fs w !! filepath args = None) →
  ∃ msg, main args w = (Raise (SystemExit msg), w).
Proof.
  unfold main, previously_processed_repo_ids.
  intros [[-> [text Hfile]]|[-> Hfile]]; eexists;
    unfold mbind, Job_bind, on_files, start_repo_csv, get_repo_ids_from_csv, pure;
    rewrite Hfile; simpl; [destruct w|]; reflexivity.
Qed.


Lemma sorted_join_empty : sorted_join ∅ = Ok "".
Proof. unfold sorted_join. by rewrite elements_empty. Qed.

(** X18. A team listing that fails degrades to no teams: when the
    listing is answered by 204, or by twenty failed responses (each with
    the integer rate-limit headers and a duration [time.sleep] accepts, so
    that the retries go on), the mapping is empty and no member is
    requested; and every row built with an empty mapping has no team
    name. *)
Theorem failed_team_listing_gives_no_teams :
  (∀ org request_headers w r rest,
     net w = r :: rest →
     status_code r = 204 →
     ∃ io', get_logins_by_team_slug org request_headers w =
              (Ok [], {| net := rest; io := io'; fs := fs w |})) ∧
  (∀ org request_headers w fails ds rest,
     net w = fails ++ rest →
     failures (clock (io w)) (ticks (io w)) fails ds →
     length fails = MAX_NB_RETRIES →
     ∃ io', get_logins_by_team_slug org request_headers w =
              (Ok [], {| net := rest; io := io'; fs := fs w |})) ∧
  (∀ repo cs stats row,
     build_repo_row repo cs stats [] = Ok row → team_names row = "").
Proof.
  split; [|split].
  - intros org hdrs w r rest Hnet H204.
    unfold get_logins_by_team_slug, request, get_all_teams, run_request.
    unfold mbind at 1, Job_bind at 1. rewrite Hnet.
    rewrite run_request_loop_204 by (done || unfold MAX_NB_RETRIES; lia).
    by eexists.
  - intros org hdrs w fails ds rest Hnet Hfails Hlen.
    unfold get_logins_by_team_slug, request, get_all_teams.
    unfold mbind at 1, Job_bind at 1. rewrite Hnet.
    rewrite (run_request_exhausted fails ds) by done.
    by eexists.
  - intros repo cs stats row Hrow. unfold build_repo_row in Hrow.
    destruct (py_iter cs) as [contributors|]; [|done]. simpl in Hrow.
    destruct (login_set contributors) as [logins|]; [|done]. simpl in Hrow.
    destruct (getitem repo "name") as [name|]; [|done]. simpl in Hrow.
    destruct (getitem repo "id") as [id|]; [|done]. simpl in Hrow.
    destruct (getitem repo "size") as [sz|]; [|done]. simpl in Hrow.
    destruct (commit_count stats 3) as [l3|]; [|done]. simpl in Hrow.
    destruct (commit_count stats 52) as [l52|]; [|done]. simpl in Hrow.
    destruct (sorted_join logins) as [handles|]; [|done]. simpl in Hrow.
    unfold teams_of in Hrow. simpl in Hrow. rewrite sorted_join_empty in Hrow.
    simpl in Hrow. by injection Hrow as <-.
Qed.

End More_job_properties.

(** ** Properties of the whole job *)

Section Job_invariants.
Context `{!Builtins, !Platform, !Csv}.

Local Open Scope list_scope.

(** A relation between worlds that every step of the job keeps. *)
Section Kept.
Variable R : World → World → Prop.
Variable args : Args.
Hypothesis R_refl : ∀ w, R w w.
Hypothesis R_trans : ∀ w1 w2 w3, R w1 w2 → R w2 w3 → R w1 w3.
Hypothesis R_request : ∀ url is_paginated,
  job_keeps R (request (fun net =>
    run_request net url (request_headers_of args) is_paginated)).
Hypothesis R_start : job_keeps R (on_files (start_repo_csv (filepath args))).
Hypothesis R_write : ∀ row,
  job_keeps R (on_files (fun fs => ((), write_repo_row (filepath args) row fs))).

Lemma keeps_pure {A : Type} (r : Result A) : job_keeps R (pure r).
Proof. intros w. apply R_refl. Qed.

Lemma keeps_ret {A : Type} (a : A) : job_keeps R (mret a).
Proof. intros w. apply R_refl. Qed.

Lemma keeps_bind {A B : Type} (m : Job A) (k : A → Job B) :
  job_keeps R m → (∀ a, job_keeps R (k a)) → job_keeps R (m ≫= k).
Proof.
  intros Hm Hk w. unfold mbind, Job_bind. specialize (Hm w).
  destruct (m w) as [[a|e] w1]; simpl in *; [|done].
  by apply (R_trans _ w1), Hk.
Qed.

Lemma members_by_team_slug_keeps teams :
  ∀ acc, job_keeps R
           (members_by_team_slug (owner args) (request_headers_of args) teams acc).
Proof.
  induction teams as [|team teams IH]; intros acc; cbn [members_by_team_slug].
  - apply keeps_ret.
  - apply keeps_bind; [apply keeps_pure|]. intros slug.
    apply keeps_bind; [apply R_request|]. intros members.
    apply keeps_bind; [apply keeps_pure|]. intros k. apply IH.
Qed.

Lemma get_logins_by_team_slug_keeps :
  job_keeps R (get_logins_by_team_slug (owner args) (request_headers_of args)).
Proof.
  unfold get_logins_by_team_slug.
  apply keeps_bind; [apply R_request|]. intros all_teams.
  apply keeps_bind; [apply keeps_pure|]. intros teams.
  apply keeps_bind; [apply members_by_team_slug_keeps|]. intros items.
  apply keeps_pure.
Qed.

Lemma repo_loop_keeps repos previous teams :
  job_keeps R
    (repo_loop repos previous (request_headers_of args) teams (filepath args)).
Proof.
  induction repos as [|repo repos IH]; cbn [repo_loop].
  - apply keeps_ret.
  - apply keeps_bind; [apply keeps_pure|]. intros id.
    apply keeps_bind; [apply keeps_pure|]. intros k.
    destruct (in_ids k previous); [apply IH|].
    apply keeps_bind; [apply keeps_pure|]. intros full_name.
    apply keeps_bind; [apply R_request|]. intros contributors.
    apply keeps_bind; [apply R_request|]. intros repo_stats.
    apply keeps_bind; [apply keeps_pure|]. intros repo_row.
    apply keeps_bind; [apply R_write|]. intros _. apply IH.
Qed.

Lemma previously_processed_repo_ids_keeps :
  job_keeps R (previously_processed_repo_ids args).
Proof.
  unfold previously_processed_repo_ids. destruct (append_only args).
  - apply keeps_bind; [intros w; apply R_refl|].
    intros [ids|]; [apply keeps_ret|apply keeps_pure].
  - apply keeps_bind; [apply R_start|].
    intros [|]; [apply keeps_ret|apply keeps_pure].
Qed.

Lemma main_keeps : job_keeps R (main args).
Proof.
  unfold main.
  apply keeps_bind; [apply previously_processed_repo_ids_keeps|]. intros previous.
  apply keeps_bind; [apply R_request|]. intros fetched.
  apply keeps_bind; [apply get_logins_by_team_slug_keeps|]. intros teams.
  apply keeps_bind; [apply keeps_pure|]. intros _.
  apply keeps_bind; [apply keeps_pure|]. intros repos.
  apply repo_loop_keeps.
Qed.

End Kept.

Lemma lines_of_app rows rows' :
  lines_of (rows ++ rows') = lines_of rows +:+ lines_of rows'.
Proof.
  induction rows as [|row rows IH]; [done|].
  simpl. by rewrite IH, string_app_assoc.
Qed.

Lemma only_appends_refl w : only_appends w w.
Proof. intros path text Hfile. exists []. simpl. by rewrite string_app_nil_r. Qed.

Lemma only_appends_trans w1 w2 w3 :
  only_appends w1 w2 → only_appends w2 w3 → only_appends w1 w3.
Proof.
  intros H12 H23 path text Hfile.
  destruct (H12 path text Hfile) as [rows Hfile2].
  destruct (H23 path _ Hfile2) as [rows' Hfile3].
  exists (rows ++ rows'). by rewrite lines_of_app, <- string_app_assoc.
Qed.

Lemma on_files_fs {A : Type} (f : gmap string string → A * gmap string string) w :
  fs (on_files f w).2 = (f (fs w)).2.
Proof. unfold on_files. by destruct (f (fs w)). Qed.

(** X19. The job only ever appends: whatever the arguments, the files
    and the network are, and whether [main] ends normally, exits or
    raises, every file that existed keeps its text, with at most the lines
    the csv writer gave for rows after it, and no path other than the
    output path is created or changed. *)
Theorem main_only_appends args w :
  only_appends w (main args w).2 ∧
  only_touches (filepath args) w (main args w).2.
Proof.
  split.
  - apply (main_keeps only_appends args).
    + apply only_appends_refl.
    + apply only_appends_trans.
    + intros url pag w0 path text Hfile. rewrite request_fs.
      exists []. simpl. by rewrite string_app_nil_r.
    + intros w0 path text Hfile. rewrite on_files_fs.
      unfold start_repo_csv. exists []. simpl. rewrite string_app_nil_r.
      destruct (fs w0 !! filepath args) eqn:Hout; simpl; [done|].
      rewrite lookup_insert_ne; [done|]. congruence.
    + intros row w0 path text Hfile. rewrite on_files_fs. simpl.
      unfold write_repo_row. destruct (decide (path = filepath args)) as [->|Hne].
      * exists [row]. simpl. by rewrite Hfile, lookup_insert_eq, string_app_nil_r.
      * exists []. simpl. by rewrite string_app_nil_r, lookup_insert_ne.
  - apply (main_keeps (only_touches (filepath args)) args).
    + by intros w0 path Hne.
    + intros w1 w2 w3 H12 H23 path Hne. by rewrite H23, H12.
    + intros url pag w0 path Hne. by rewrite request_fs.
    + intros w0 path Hne. rewrite on_files_fs. unfold start_repo_csv.
      destruct (fs w0 !! filepath args); simpl; [done|].
      by rewrite lookup_insert_ne.
    + intros row w0 path Hne. rewrite on_files_fs. simpl.
      unfold write_repo_row. by rewrite lookup_insert_ne.
Qed.

Lemma sends_with_refl request_headers w : sends_with request_headers w w.
Proof. exists []. by rewrite app_nil_r. Qed.

Lemma sends_with_trans request_headers w1 w2 w3 :
  sends_with request_headers w1 w2 →
  sends_with request_headers w2 w3 →
  sends_with request_headers w1 w3.
Proof.
  intros (evs & Htr & Hall) (evs' & Htr' & Hall').
  exists (evs ++ evs'). split; [by rewrite Htr', Htr, app_assoc|].
  by apply Forall_app.
Qed.

(** X20. Every request of a run is sent with the headers built from the
    token, those for "next" pages, team members, contributors and
    statistics too: with a token that is not empty each request carries
    the bearer authorization and the accept header, and with none it
    carries no headers. *)
Theorem main_sends_the_token args w :
  sends_with (request_headers_of args) w (main args w).2 ∧
  (∀ t, token args = Some t → t ≠ "" →
     request_headers_of args =
       Some [("Authorization", "Bearer " +:+ t);
             ("Accept", "application/vnd.github+json")]) ∧
  (token args = None ∨ token args = Some "" → request_headers_of args = None).
Proof.
  split; [|split].
  - apply (main_keeps (sends_with (request_headers_of args)) args).
    + apply sends_with_refl.
    + apply sends_with_trans.
    + intros url pag w0. unfold request.
      destruct (run_request_loop_accounted (net w0) recursion_depth url
                  (request_headers_of args) pag 0 ∅ (io w0))
        as (used & evs & _ & Htr & _ & Hall & _).
      fold (run_request (net w0) url (request_headers_of args) pag (io w0)) in *.
      destruct (run_request _ _ _ _ _) as [[res net'] io']. simpl in *.
      by exists evs.
    + intros w0. unfold on_files. destruct (start_repo_csv _ _).
      exists []. simpl. by rewrite app_nil_r.
    + intros row w0. exists []. simpl. by rewrite app_nil_r.
  - intros t Ht Hne. unfold request_headers_of. rewrite Ht.
    by destruct (String.eqb_spec t "").
  - intros [Ht|Ht]; unfold request_headers_of; by rewrite Ht.
Qed.

End Job_invariants.

(** ** Closed examples

    The claims and the further properties at concrete inputs, with the
    built-ins on decimal literals, the platform and the csv module of the
    instances above. *)

#[local] Existing Instance decimal_builtins.
#[local] Existing Instance cpython_platform.
#[local] Existing Instance excel_csv.

Ltac compute_eq := vm_compute; reflexivity.

Ltac failed_response lim rem rst :=
  split; [done|split; [done|]];
  exists lim, rem, rst;
  split; [compute_eq|];
  split; [compute_eq|];
  split; [compute_eq|];
  split; [compute_eq|];
  split; [by vm_compute|split; by vm_compute].

Lemma server_error_failed now : failed_with server_error now 5.
Proof. failed_response 5000 4999 1700000000. Qed.

Lemma server_errors_fail n clk t :
  failures clk t (replicate n server_error) (replicate n 5).
Proof.
  revert t. induction n as [|n IH]; intros t; simpl; [done|].
  split; [apply server_error_failed|apply IH].
Qed.

Lemma page_1_page : page page_1 [JInt 1; JInt 2] (Some page_2_url).
Proof. repeat split; compute_eq. Qed.

Lemma page_2_page : page page_2 [JInt 3] None.
Proof. repeat split; compute_eq. Qed.

Lemma chain_paginated n : paginated (chain n) (chain_items n).
Proof.
  induction n as [|n IH].
  - apply paginated_last, page_2_page.
  - apply (paginated_next _ _ page_2_url); [apply page_1_page|apply IH].
Qed.

(** C1 at two pages: the items of both, in order, by two requests; and at
    600 pages, which the stack has no room for. *)
Lemma paginated_fetch_concatenates_witness :
  run_request (chain 1 ++ []) "https://api.github.com/orgs/acme/repos" None true
    (start_io 0) =
    (Ok (JList [JInt 1; JInt 2; JInt 3]), [],
     after_events (start_io 0)
       (fetches "https://api.github.com/orgs/acme/repos" None (chain 1))) ∧
  (run_request (chain 599 ++ []) "https://api.github.com/orgs/acme/repos" None true
     (start_io 0)).1.1 = Raise RecursionError.
Proof.
  split.
  - apply (paginated_fetch_concatenates (chain 1) (chain_items 1) []
             "https://api.github.com/orgs/acme/repos" None (start_io 0)
             (chain_paginated 1)).
    vm_compute. lia.
  - rewrite (proj2 (paginated_fetch_concatenates (chain 599) (chain_items 599) []
                      "https://api.github.com/orgs/acme/repos" None (start_io 0)
                      (chain_paginated 599)))
      by (vm_compute; lia).
    reflexivity.
Defined.

(** C2 at twenty 500 responses that carry the rate-limit headers. *)
Lemma retry_ceiling_witness :
  run_request (replicate 20 server_error ++ []) "u" None false (start_io 0) =
    (Ok JNull, [],
     emit (LogError "u" (list_to_set (status_code <$> replicate 20 server_error)))
       (after_retries (start_io 0) "u" None (replicate 20 5))) ∧
  attempts (retry_events "u" None (replicate 20 5)) = 20%nat.
Proof.
  apply (proj1 retry_ceiling (replicate 20 server_error) (replicate 20 5)).
  - apply server_errors_fail.
  - reflexivity.
Defined.

(** C2 as stated fails: twenty responses of status 500 without the
    rate-limit headers make [run_request] raise [KeyError] after one
    request, with nineteen responses never asked for. *)
Lemma retry_ceiling_counterexample :
  let rs := replicate 20 (bare_response 500) in
  let out := run_request rs "u" None false (start_io 0) in
  Forall (fun r => status_code r ≠ 200 ∧ status_code r ≠ 204) rs ∧
  out.1.1 = Raise KeyError ∧
  out.1.1 ≠ Ok JNull ∧
  attempts (trace out.2) = 1%nat ∧
  attempts (trace out.2) ≠ 20%nat ∧
  length out.1.2 = 19%nat.
Proof.
  repeat split; try compute_eq; try done.
  apply Forall_replicate. done.
Qed.

(** C3 at a response with quota left, at a throttled one whose reset is
    ahead, and at a throttled one whose reset is past: the duration is
    -100, and the request is given up with the [ValueError] of
    [time.sleep]. *)
Lemma sleep_duration_policy_witness :
  (_sleep_duration server_error (start_io 0)).1 = Ok RETRY_SLEEP_DEFAULT ∧
  (_sleep_duration throttled (start_io 40)).1 = Ok (100 - 40) ∧
  ((_sleep_duration throttled (start_io 200)).1 ≠ Ok (Z.max 0 (100 - 200)) ∧
   ∃ e, (e = ValueError ∨ e = OverflowError) ∧
     (run_request [throttled; page_1] "u" None false (start_io 200)).1 =
       (Raise e, [page_1])) ∧
  (_sleep_duration throttled (start_io 200)).1 = Ok (-100) ∧
  (run_request [throttled; page_1] "u" None false (start_io 200)).1 =
    (Raise ValueError, [page_1]).
Proof.
  destruct (sleep_duration_policy server_error (start_io 0) 5000 4999 1700000000)
    as (Hdefault & _ & _); [compute_eq..|].
  destruct (sleep_duration_policy throttled (start_io 40) 5000 0 100)
    as (_ & Hreset & _); [compute_eq..|].
  destruct (sleep_duration_policy throttled (start_io 200) 5000 0 100)
    as (_ & _ & Hpast); [compute_eq..|].
  split; [|split; [|split; [|split]]].
  - apply Hdefault. by vm_compute.
  - apply Hreset; [by vm_compute|compute_eq].
  - destruct Hpast as [Hneg Hraise]; [by vm_compute|compute_eq|by vm_compute|].
    split; [exact Hneg|]. by apply Hraise.
  - compute_eq.
  - compute_eq.
Defined.

Lemma page_1_linked : linked "u" [page_1] [[JInt 1; JInt 2]] page_2_url.
Proof. apply (linked_cons _ _ _ page_2_url); [apply page_1_page|constructor]. Qed.

(** C4 at a page followed by twenty failures on the next one. *)
Lemma exhaustion_keeps_fetched_pages_witness :
  run_request ([page_1] ++ replicate 20 server_error ++ []) "u" None true (start_io 0) =
    (Ok (JList (concat [[JInt 1; JInt 2]])), [],
     emit (LogError page_2_url
             (list_to_set (status_code <$> replicate 20 server_error)))
       (after_retries (after_events (start_io 0) (fetches "u" None [page_1]))
          page_2_url None (replicate 20 5))).
Proof.
  apply (proj2 exhaustion_keeps_fetched_pages [page_1] [[JInt 1; JInt 2]] page_2_url
           (replicate 20 server_error) (replicate 20 5)).
  - apply page_1_linked.
  - done.
  - vm_compute. lia.
  - apply server_errors_fail.
  - reflexivity.
Defined.

(** C4 as stated fails: when the retries are exhausted on the second
    page, the caller receives the items of the first page, not the failure
    signal. *)
Lemma exhaustion_counterexample :
  let out := run_request (page_1 :: replicate 20 server_error) "u" None true
               (start_io 0) in
  out.1.1 = Ok (JList [JInt 1; JInt 2]) ∧
  out.1.1 ≠ Ok JNull ∧
  last (trace out.2) = Some (LogError page_2_url {[500]}) ∧
  attempts (trace out.2) = 21%nat.
Proof. repeat split; try compute_eq; by vm_compute. Qed.

(** C9 at a 200 response with a "next" link whose body is an object. *)
Lemma non_list_body_asserted_with_next_witness :
  run_request [message_page_linked] "u" None true (start_io 0) =
    (Raise AssertionError, [], emit (Get "u" None) (start_io 0)).
Proof.
  destruct (non_list_body_asserted_with_next message_page_linked message_body
              [] "u" None (start_io 0)) as [Hnext _]; [compute_eq|compute_eq|done|].
  apply (Hnext page_2_url). compute_eq.
Defined.

(** C9 as stated fails: a 200 response with no "next" link to a
    request made with the paginated flag set has its object body returned,
    with no assertion failing. *)
Lemma non_list_body_counterexample :
  let out := run_request [message_page] "u" None true (start_io 0) in
  status_code message_page = 200 ∧
  json message_page = Some message_body ∧
  (∀ items, message_body ≠ JList items) ∧
  out.1.1 = Ok message_body ∧
  out.1.1 ≠ Raise AssertionError.
Proof. repeat split; try compute_eq; done. Qed.

Lemma bare_response_no_headers status : ¬ rate_limit_headers (bare_response status).
Proof. intros [(v & z & Hv & _) _]. vm_compute in Hv. discriminate. Qed.

(** C10 at a 500 response with no header: one request, then [KeyError]
    or [ValueError]. *)
Lemma retry_needs_rate_limit_headers_witness :
  ∃ e, (e = KeyError ∨ e = ValueError) ∧
    run_request [bare_response 500; server_error] "u" None false (start_io 0) =
      (Raise e, [server_error], emit (Get "u" None) (start_io 0)).
Proof.
  apply (proj2 (proj2 retry_needs_rate_limit_headers)).
  - done.
  - done.
  - apply bare_response_no_headers.
Defined.

(** C6 on an empty file system. *)
Lemma start_repo_csv_never_overwrites_witness :
  let first := start_repo_csv "out.csv" ∅ in
  let second := start_repo_csv "out.csv" first.2 in
  first = (true, <["out.csv" := csv_writerow field_names]> ∅) ∧
  second = (false, first.2) ∧
  second.2 !! "out.csv" = Some (csv_writerow field_names).
Proof.
  apply (proj2 start_repo_csv_never_overwrites "out.csv" ∅).
  apply lookup_empty.
Defined.

Lemma example_file_read : csv_reader example_file = (field_names :: example_records, None).
Proof. compute_eq. Qed.

(** C7 on the example file: the ids 1, 2, 3 of column 1. *)
Lemma get_repo_ids_from_csv_found_witness :
  get_repo_ids_from_csv "out.csv" (fs example_world) =
    Ok (Some (list_to_set [1; 2; 3])).
Proof.
  apply (proj1 (proj2 get_repo_ids_from_csv_found) "out.csv" (fs example_world)
           example_file field_names example_records 1%nat [1; 2; 3]).
  - compute_eq.
  - apply example_file_read.
  - reflexivity.
  - intros j Hj. do 9 (destruct j as [|j]; try done).
  - compute_eq.
Defined.

Lemma example_row_built :
  build_repo_row (example_repo 4 "d") example_contributors
    (JDict [("all", JList (JInt <$> [1; 2; 3; 4]))]) example_teams = Ok example_row.
Proof. compute_eq. Qed.

(** C8 on repository 4: the row with absent statistics, and with weekly
    counts 1, 2, 3, 4, whose last three sum to 9. *)
Lemma absent_stats_count_zero_witness :
  build_repo_row (example_repo 4 "d") example_contributors JNull example_teams =
    Ok (with_counts example_row 0 0) ∧
  build_repo_row (example_repo 4 "d") example_contributors
    (JDict [("all", JList (JInt <$> [1; 2; 3; 4]))]) example_teams =
    Ok (with_counts example_row 9 10).
Proof.
  split.
  - apply (proj1 absent_stats_count_zero _ _ _ _ _ example_row_built).
  - apply (proj1 (proj2 absent_stats_count_zero) _ _ _ _ _ _ [1; 2; 3; 4]
             [2; 3; 4] [1; 2; 3; 4] example_row_built).
    + reflexivity.
    + exists [1]. split; [done|by left].
    + exists []. split; [done|right]. split; [done|simpl; lia].
Defined.


(** *** The further properties at concrete inputs *)

(** X2 at a 200 response that carries a "next" link. *)
Lemma unpaginated_request_ignores_links_witness :
  run_request [message_page_linked; page_2] "u" None false (start_io 0) =
    (Ok message_body, [page_2], emit (Get "u" None) (start_io 0)).
Proof.
  apply (unpaginated_request_ignores_links message_page_linked message_body);
    compute_eq.
Defined.

(** X3 at two pages, each answered after nineteen failures. *)
Lemma flaky_pagination_concatenates_witness :
  (run_request
     ((replicate 19 server_error
         ++ page_1 :: (replicate 19 server_error ++ [page_2])) ++ [])%list
     "u" None true (start_io 0)).1 =
    (Ok (JList (concat [[JInt 1; JInt 2]; [JInt 3]])), []).
Proof.
  apply flaky_pagination_concatenates; [|vm_compute; lia].
  apply (flaky_next _ _ _ (replicate 19 5) _ _ page_2_url).
  - apply server_errors_fail.
  - rewrite length_replicate. unfold MAX_NB_RETRIES. lia.
  - apply page_1_page.
  - apply (flaky_last _ _ _ (replicate 19 5)).
    + apply server_errors_fail.
    + rewrite length_replicate. unfold MAX_NB_RETRIES. lia.
    + apply page_2_page.
Defined.

(** X4 at a page followed by a last page whose body is an object. *)
Lemma non_list_last_page_witness :
  (run_request ([page_1] ++ message_page :: [])%list "u" None true (start_io 0)).1 =
    (if truthy message_body then Raise AssertionError
     else Ok (JList (concat [[JInt 1; JInt 2]])), []).
Proof.
  apply (non_list_last_page [page_1] [[JInt 1; JInt 2]] page_2_url);
    [apply page_1_linked|done|vm_compute; lia|compute_eq|compute_eq|done|compute_eq].
Defined.

(** X5 at a page followed by a 500 response with no header. *)
Lemma raise_on_next_page_discards_witness :
  ∃ e, (e = KeyError ∨ e = ValueError) ∧
    (run_request ([page_1] ++ bare_response 500 :: [])%list "u" None true
       (start_io 0)).1 = (Raise e, []).
Proof.
  apply (raise_on_next_page_discards [page_1] [[JInt 1; JInt 2]] page_2_url);
    [apply page_1_linked|done|vm_compute; lia|done|done
    |apply bare_response_no_headers].
Defined.

(** X6 on repository 4: contributors alice and bob, teams core (alice)
    and docs (carol). *)
Lemma team_names_are_contributing_teams_witness :
  ∃ slugs,
    team_names example_row = String.concat ", " slugs ∧
    Sorted (fun a b => Is_true (String.leb a b)) slugs ∧
    NoDup slugs ∧
    ∀ slug, slug ∈ slugs ↔
      ∃ members k,
        (KStr slug, members) ∈ example_teams ∧
        login_of [JDict [("login", JStr "bob")]; JDict [("login", JStr "alice")]] k ∧
        k ∈ members.
Proof.
  apply (team_names_are_contributing_teams _ _ _ _ _ _ example_row_built).
  reflexivity.
Defined.

(** X7 on repository 4. *)
Lemma contributor_handles_are_sorted_logins_witness :
  ∃ handles,
    contributor_handles example_row = String.concat ", " handles ∧
    Sorted (fun a b => Is_true (String.leb a b)) handles ∧
    NoDup handles ∧
    contributor_count example_row = length handles ∧
    (∀ handle, handle ∈ handles ↔
       login_of [JDict [("login", JStr "bob")]; JDict [("login", JStr "alice")]]
         (KStr handle)) ∧
    (∀ k, login_of [JDict [("login", JStr "bob")]; JDict [("login", JStr "alice")]] k →
          ∃ handle, k = KStr handle).
Proof.
  apply (contributor_handles_are_sorted_logins _ _ _ _ _ _ example_row_built).
  reflexivity.
Defined.

(** X8 on repository 4 with weekly counts 1, 2, 3, 4. *)
Lemma recent_commits_bounded_witness :
  0 ≤ last_3_weeks_commit_count example_row ∧
  last_3_weeks_commit_count example_row ≤ last_52_weeks_commit_count example_row ∧
  last_52_weeks_commit_count example_row ≤ total [1; 2; 3; 4] ∧
  ((length ([1; 2; 3; 4]%Z : list Z) ≤ 3)%nat →
   last_3_weeks_commit_count example_row = total [1; 2; 3; 4] ∧
   last_52_weeks_commit_count example_row = total [1; 2; 3; 4]).
Proof.
  apply (recent_commits_bounded _ _ _ _ _ _ example_row_built).
  - reflexivity.
  - repeat constructor; lia.
Defined.

(** X9 on repository 4: an empty object, an object without "all", a
    list. *)
Lemma stats_shapes_witness :
  build_repo_row (example_repo 4 "d") example_contributors (JDict []) example_teams =
    Ok (with_counts example_row 0 0) ∧
  build_repo_row (example_repo 4 "d") example_contributors
    (JDict [("owner", JList [])]) example_teams = Raise KeyError ∧
  build_repo_row (example_repo 4 "d") example_contributors
    (JList [JInt 1]) example_teams = Raise TypeError.
Proof.
  destruct (stats_shapes _ _ _ _ _ example_row_built) as (Hfalsy & Hkey & Htype).
  split; [|split].
  - by apply Hfalsy.
  - by apply Hkey.
  - by apply Htype.
Defined.

(** X10 at a contributor and at a repository that are empty objects. *)
Lemma missing_keys_raise_witness :
  build_repo_row (example_repo 4 "d")
    (JList ([JDict [("login", JStr "bob")]] ++ JDict [] :: []))%list JNull example_teams =
    Raise KeyError ∧
  build_repo_row (JDict [("name", JStr "d")]) example_contributors JNull example_teams =
    Raise KeyError.
Proof.
  split.
  - apply (proj1 missing_keys_raise _ _ _ _ _ _ {[KStr "bob"]}); [|done].
    reflexivity.
  - apply (proj2 missing_keys_raise _ _ _ _ (list_to_set [KStr "bob"; KStr "alice"]) "id");
      [compute_eq| |done].
    apply elem_of_cons; right. by apply elem_of_cons; left.
Defined.

(** X11 at a reset time out of range, and at a reset time that is
    past. *)
Lemma out_of_range_rate_limit_raises_witness :
  run_request [far_reset; page_1] "u" None false (start_io 0) =
    (Raise OverflowError, [page_1], (time_time (emit (Get "u" None) (start_io 0))).2) ∧
  run_request [throttled; page_1] "u" None false (start_io 200) =
    (Raise ValueError, [page_1], (time_time (emit (Get "u" None) (start_io 200))).2).
Proof.
  split.
  - apply (proj1 (out_of_range_rate_limit_raises far_reset 5000 0 99999999999999999999
                    [page_1] "u" None false (start_io 0)
                    ltac:(done) ltac:(done) ltac:(compute_eq) ltac:(compute_eq)
                    ltac:(compute_eq))).
    + by vm_compute.
    + compute_eq.
  - apply (proj2 (out_of_range_rate_limit_raises throttled 5000 0 100
                    [page_1] "u" None false (start_io 200)
                    ltac:(done) ltac:(done) ltac:(compute_eq) ltac:(compute_eq)
                    ltac:(compute_eq))).
    + intros _. compute_eq.
    + split; by vm_compute.
    + by vm_compute.
Defined.

(** X13 on a file with no id column and on a file with the id "two". *)
Lemma get_repo_ids_from_csv_errors_witness :
  get_repo_ids_from_csv "out.csv" headless_files = Raise KeyError ∧
  get_repo_ids_from_csv "out.csv" damaged_files = Raise ValueError.
Proof.
  split.
  - apply (proj1 (get_repo_ids_from_csv_errors "out.csv" headless_files
                    ["name"; "size"])
             (String.concat "" (excel_writerow <$> [["name"; "size"]; ["a"; "10"]]))
             [["a"; "10"]] None).
    + compute_eq.
    + compute_eq.
    + intros Hin. repeat (apply elem_of_cons in Hin as [?|Hin]; [done|]).
      by apply elem_of_nil in Hin.
    + by constructor.
  - apply (proj2 (get_repo_ids_from_csv_errors "out.csv" damaged_files field_names)
             (String.concat ""
                (excel_writerow <$>
                   [field_names;
                    ["a"; "1"; "10"; "0"; "0"; "0"; ""; ""];
                    ["b"; "two"; "10"; "0"; "0"; "0"; ""; ""]]))
             1%nat [["a"; "1"; "10"; "0"; "0"; "0"; ""; ""]] [1]
             ["b"; "two"; "10"; "0"; "0"; "0"; ""; ""] "two" [] None).
    + compute_eq.
    + compute_eq.
    + reflexivity.
    + apply field_names_id_column.
    + compute_eq.
    + compute_eq.
    + compute_eq.
Defined.

(** X14 on repositories 1, 2, 3 with skip-set {1,2,3}. *)
Lemma recorded_repositories_are_skipped_witness :
  repo_loop [example_repo 1 "a"; example_repo 2 "b"; example_repo 3 "c"]
    {[1; 2; 3]} None example_teams "out.csv" example_loop_world =
    (Ok (), example_loop_world).
Proof.
  apply recorded_repositories_are_skipped.
  repeat constructor; eexists; (split; [reflexivity|by vm_compute]).
Defined.

Lemma example_ids_read_back : Forall reads_back [1; 2; 3; 4].
Proof. repeat constructor; (compute_eq || by vm_compute). Qed.

(** X15 on the loop of the example run. *)
Lemma rerun_appends_nothing_witness :
  let out := repo_loop example_repos (list_to_set [1; 2; 3]) None example_teams
               "out.csv" example_loop_world in
  out.1 = Ok () ∧
  ∃ ids',
    get_repo_ids_from_csv "out.csv" (fs out.2) = Ok (Some ids') ∧
    list_to_set [1; 2; 3] ⊆ ids' ∧
    (∀ z, z ∈ [1; 2; 3; 4] → z ∈ ids') ∧
    ∀ request_headers' teams' w',
      repo_loop example_repos ids' request_headers' teams' "out.csv" w' = (Ok (), w').
Proof.
  apply (rerun_appends_nothing None example_teams "out.csv" [1; 2; 3] example_repos
           [1; 2; 3; 4] example_loop_world example_file example_records
           [with_counts example_row 0 0] []
           (after_events (start_io 0)
              [Get example_contributors_url None; Get example_stats_url None])).
  - repeat constructor.
  - apply example_ids_read_back.
  - compute_eq.
  - compute_eq.
  - apply (fetched_row _ _ _ _ _ _ (JStr "acme/d") example_contributors
             [no_content]
             (after_events (start_io 0) [Get example_contributors_url None])
             JNull []
             (after_events (start_io 0)
                [Get example_contributors_url None; Get example_stats_url None]));
      [reflexivity|compute_eq|compute_eq|compute_eq|constructor].
  - compute_eq.
Defined.

(** X16 on the example world, in normal mode: the file exists. *)
Lemma main_exits_before_any_request_witness :
  ∃ msg,
    main {| owner := "acme"; token := None; filepath := "out.csv";
            append_only := false |} example_world =
      (Raise (SystemExit msg), example_world).
Proof.
  apply main_exits_before_any_request. left. split; [done|].
  eexists. compute_eq.
Defined.


(** X18 on a listing answered by 204. *)
Lemma failed_team_listing_gives_no_teams_witness :
  ∃ io',
    get_logins_by_team_slug "acme" None
      {| net := [no_content; page_1]; io := start_io 0; fs := ∅ |} =
      (Ok [], {| net := [page_1]; io := io'; fs := ∅ |}).
Proof.
  apply (proj1 failed_team_listing_gives_no_teams "acme" None
           {| net := [no_content; page_1]; io := start_io 0; fs := ∅ |}
           no_content [page_1]); reflexivity.
Defined.

(** X20 on a run with a token: every request of the run carries it. *)
Lemma main_sends_the_token_witness :
  let args :=
    {| owner := "acme"; token := Some "t0ken"; filepath := "out.csv";
       append_only := true |} in
  sends_with
    (Some [("Authorization", "Bearer t0ken");
           ("Accept", "application/vnd.github+json")])
    example_world (main args example_world).2.
Proof.
  intros args.
  destruct (main_sends_the_token args example_world) as (Hsent & Hheaders & _).
  change (sends_with (Some [("Authorization", "Bearer " +:+ "t0ken");
                            ("Accept", "application/vnd.github+json")])
            example_world (main args example_world).2).
  rewrite <- (Hheaders "t0ken"); [exact Hsent|reflexivity|discriminate].
Defined.
